(** * Character-level language model lab and embedding lab: a shallow embedding

    The development follows two notebooks of the course material:

    - [labs/06_deep_nlp/Character_Level_Language_Model.ipynb]: the symbol
      vocabulary ([chars], [char_indices], [indices_char]), the sampler
      [sample_one] and the generation loop [generate_text];
    - [labs/03_neural_recsys/Short_Intro_to_Embeddings_with_Keras.ipynb]:
      [onehot_encode] and the embedding obtained as a dot product.

    Python exceptions are values of [exn] carried by the [result] type,
    numpy's float arrays are lists over [float] (the reals extended with the
    IEEE special values, with overflow to infinity and underflow to zero at
    the limits of [float64]; rounding within the range and the sign of zero
    are not modelled), Python dictionaries are
    [gmap]s, and the process-wide random state of [np.random] is threaded
    explicitly. *)

From Stdlib Require Import Reals Lra Lia ZArith List Ascii String.
From stdpp Require Import base gmap sets list strings sorting.

Local Open Scope Z_scope.
Local Open Scope nat_scope.

(** ** Exceptions and the error monad *)

Inductive exn : Type :=
| KeyError      (* dict lookup of an absent key *)
| IndexError    (* array subscript out of bounds *)
| ValueError.   (* numpy argument checks *)

Inductive result (A : Type) : Type :=
| Ok (a : A)
| Raise (e : exn).
Arguments Ok {A} a.
Arguments Raise {A} e.

Global Instance result_ret : MRet result := λ A a, Ok a.

Global Instance result_bind : MBind result := λ A B k r,
  match r with
  | Ok a => k a
  | Raise e => Raise e
  end.

(** [d[k]] on a Python dict. *)
Definition getitem `{Countable K} {V} (d : gmap K V) (k : K) : result V :=
  match d !! k with
  | Some v => Ok v
  | None => Raise KeyError
  end.

(** ** Strings and the vocabulary (notebook cell 7) *)

(** A Python [str] is a sequence of characters; characters are ordered by
    their code point. *)
Abbreviation char := ascii (only parsing).
Abbreviation str := (list ascii) (only parsing).

Definition ord (c : char) : N := N_of_ascii c.

Definition char_le (a b : char) : Prop := (ord a <= ord b)%N.

Global Instance char_le_dec : RelDecision char_le.
Proof. intros a b. unfold char_le. apply _. Defined.

(** [sorted(list(set(text)))]: the iteration order of the set is immaterial
    since the distinct symbols are then sorted by a total order. *)
Definition sorted (l : list char) : list char := merge_sort char_le l.

Definition chars (text : str) : list char :=
  sorted (elements (list_to_set text : gset char)).

Definition enumerate {A} (l : list A) : list (nat * A) :=
  zip (seq 0 (length l)) l.

(** [dict(pairs)]: pairs are inserted from left to right, a later pair
    overrides an earlier one with the same key. *)
Definition dict `{Countable K} {V} (pairs : list (K * V)) : gmap K V :=
  foldl (λ d kv, <[kv.1 := kv.2]> d) ∅ pairs.

(** [dict((c, i) for i, c in enumerate(chars))] *)
Definition char_indices (text : str) : gmap char nat :=
  dict ((λ ic, (ic.2, ic.1)) <$> enumerate (chars text)).

(** [dict((i, c) for i, c in enumerate(chars))] *)
Definition indices_char (text : str) : gmap nat char :=
  dict ((λ ic, (ic.1, ic.2)) <$> enumerate (chars text)).

(** [voc_size = len(chars)]. (Cell 15 rebinds [chars] to the same symbols
    ordered by frequency, which has the same length.) *)
Definition voc_size (text : str) : nat := length (chars text).

(** ** Floating-point values (numpy [float64] arrays) *)

(** The values of a float array: a real number or one of the IEEE special
    values.  [np.log], the division and [np.exp] never raise on arrays: they
    return [-inf], [inf], [nan] or [0.0] (and emit a warning) when the
    result is undefined or outside the range of [float64]. *)
Inductive float : Type :=
| NaN
| NInf
| PInf
| Fin (r : R).

Global Instance Rlt_decision : RelDecision Rlt := Rlt_dec.
Global Instance Rle_decision : RelDecision Rle := Rle_dec.
Global Instance Req_decision : EqDecision R := Req_dec_T.

Definition finite (x : float) : option R :=
  match x with
  | Fin r => Some r
  | _ => None
  end.

(** [np.log]: the logarithm of a float lies between -745 and 710 and is
    zero or of magnitude above [2^-53], well within the range. *)
Definition f_log (x : float) : float :=
  match x with
  | NaN | NInf => NaN
  | PInf => PInf
  | Fin r =>
      if decide (0 < r)%R then Fin (ln r)
      else if decide (r = 0)%R then NInf
      else NaN
  end.

(** The range of [float64] under rounding to nearest: a result of
    magnitude at least [2^1024 - 2^970] (the largest float plus half a unit
    in the last place) becomes an infinity, and one of magnitude at most
    [2^-1075] (half the smallest subnormal) becomes zero. *)
Definition overflow_threshold : R := 2 ^ 1024 - 2 ^ 970.
Definition underflow_threshold : R := / 2 ^ 1075.

(** The float returned for the real result [r] of an operation. *)
Definition f_round (r : R) : float :=
  if decide (overflow_threshold <= r)%R then PInf
  else if decide (r <= - overflow_threshold)%R then NInf
  else if decide (Rabs r <= underflow_threshold)%R then Fin 0
  else Fin r.

(** The same for a sum, which overflows but never underflows: a sum of two
    floats that small is exact. *)
Definition f_round_sum (r : R) : float :=
  if decide (overflow_threshold <= r)%R then PInf
  else if decide (r <= - overflow_threshold)%R then NInf
  else Fin r.

(** [np.exp] *)
Definition f_exp (x : float) : float :=
  match x with
  | NaN => NaN
  | NInf => Fin 0
  | PInf => PInf
  | Fin r => f_round (exp r)
  end.

(** [x / y] *)
Definition f_div (x y : float) : float :=
  match x, y with
  | NaN, _ | _, NaN => NaN
  | (PInf | NInf), (PInf | NInf) => NaN
  | PInf, Fin t => if decide (t < 0)%R then NInf else PInf
  | NInf, Fin t => if decide (t < 0)%R then PInf else NInf
  | Fin _, (PInf | NInf) => Fin 0
  | Fin a, Fin t =>
      if decide (t = 0)%R then
        if decide (0 < a)%R then PInf
        else if decide (a < 0)%R then NInf
        else NaN
      else f_round (a / t)
  end.

(** [x + y] *)
Definition f_add (x y : float) : float :=
  match x, y with
  | NaN, _ | _, NaN => NaN
  | PInf, NInf | NInf, PInf => NaN
  | PInf, _ | _, PInf => PInf
  | NInf, _ | _, NInf => NInf
  | Fin a, Fin b => f_round_sum (a + b)
  end.

(** [np.sum] of a one-dimensional array.  (numpy adds the entries pairwise;
    for the non-negative entries summed by [sample_one] the order changes
    the rounding only, not whether the sum overflows.) *)
Definition np_sum (l : list float) : float := foldr f_add (Fin 0) l.

Definition Rsum (l : list R) : R := foldr Rplus 0%R l.

(** [np.argmax] of a one-dimensional integer array: the first position of
    the maximum; an empty array is refused. *)
Fixpoint argmax_from (best_i best i : nat) (l : list nat) : nat :=
  match l with
  | [] => best_i
  | x :: l =>
      if decide (best < x) then argmax_from i x (S i) l
      else argmax_from best_i best (S i) l
  end.

Definition argmax (l : list nat) : result nat :=
  match l with
  | [] => Raise ValueError
  | x :: l => Ok (argmax_from 0 x 1 l)
  end.

(** ** The sampler (notebook cell 45) *)

Section Sampler.
(** The state of numpy's global generator, and the category selected by
    one trial over the given probabilities. *)
Context {rng : Type}.
Variable draw : rng → list R → nat * rng.

(** [np.random.multinomial(1, pvals, size=1)]: numpy refuses [pvals] that
    are not within [0, 1] (which includes [nan] and the infinities) or
    whose first [len(pvals) - 1] entries sum to more than [1 + 1e-12];
    otherwise the result is the row of counts of a single trial, [1] at the
    category drawn (one of the [len(pvals)] categories) and [0] elsewhere. *)
Definition multinomial (pvals : list float) (g : rng)
  : result (list nat * rng) :=
  match mapM finite pvals with
  | None => Raise ValueError
  | Some ps =>
      if decide (Forall (λ p, 0 <= p <= 1)%R ps) then
        if decide (1 + 1e-12 < Rsum (removelast ps))%R then Raise ValueError
        else
          let '(k, g) := draw g ps in
          Ok (<[k := 1]> (replicate (length ps) 0), g)
      else Raise ValueError
  end.

(** [np.asarray(preds).astype('float64')] leaves the entries as they are;
    then, line by line, the body of the Python function. *)
Definition sample_one (preds : list float) (temperature : float) (g : rng)
  : result (nat * rng) :=
  let preds := (λ p, f_div (f_log p) temperature) <$> preds in
  let exp_preds := f_exp <$> preds in
  let preds := (λ e, f_div e (np_sum exp_preds)) <$> exp_preds in
  '(probs, g) ← multinomial preds g;
  k ← argmax probs;
  mret (k, g).

End Sampler.

(** ** Text generation (notebook cell 45) *)

(** The input of the model, [x] of shape [(1, max_length, voc_size)]: the
    single batch entry is kept, as the list of its [max_length] rows. *)
Abbreviation tensor := (list (list float)) (only parsing).

(** [np.zeros((1, rows, cols))] *)
Definition zeros (rows cols : nat) : tensor :=
  replicate rows (replicate cols (Fin 0)).

(** A subscript [i] on an axis of size [n]: negative subscripts count from
    the end, anything outside [-n, n) is an [IndexError]. *)
Definition np_index (n : nat) (i : Z) : result nat :=
  if decide (0 ≤ i < Z.of_nat n)%Z then Ok (Z.to_nat i)
  else if decide (- Z.of_nat n ≤ i < 0)%Z then Ok (Z.to_nat (i + Z.of_nat n))
  else Raise IndexError.

(** [x[0, r, c] = v] on an array of shape [(1, rows, cols)] *)
Definition setitem (rows cols : nat) (x : tensor) (r c : Z) (v : float)
  : result tensor :=
  r ← np_index rows r;
  c ← np_index cols c;
  Ok (alter (λ row, <[c := v]> row) r x).

(** The state of the loop of [generate_text]. *)
Record loop_state {rng : Type} : Type := LoopState {
  generated : str;
  prefix : str;
  random_state : rng;
}.
Arguments loop_state : clear implicits.

Section Generation.
Context {rng : Type}.
Variable draw : rng → list R → nat * rng.

(** The globals of the notebook: the corpus [text] from which the
    vocabulary is built, the window size and the trained network,
    [model(x)[0]]. *)
Variable text : str.
Variable max_length : nat.
Variable model : tensor → list float.

(** [for t, char in enumerate(prefix): x[0, t + shift, char_indices[char]] = 1.]
    started at position [t]. *)
Fixpoint vectorize_loop (shift : Z) (t : nat) (prefix : str) (x : tensor)
  : result tensor :=
  match prefix with
  | [] => Ok x
  | char :: prefix =>
      c ← getitem (char_indices text) char;
      x ← setitem max_length (voc_size text) x (Z.of_nat t + shift)
            (Z.of_nat c) (Fin 1);
      vectorize_loop shift (S t) prefix x
  end.

Definition vectorize (prefix : str) : result tensor :=
  let x := zeros max_length (voc_size text) in
  let shift := (Z.of_nat max_length - Z.of_nat (length prefix))%Z in
  vectorize_loop shift 0 prefix x.

(** One iteration of the loop body. *)
Definition generate_step (temperature : float) (st : loop_state rng)
  : result (loop_state rng) :=
  x ← vectorize (prefix st);
  let preds := model x in
  '(next_index, g) ← sample_one draw preds temperature (random_state st);
  next_char ← getitem (indices_char text) next_index;
  Ok {| generated := generated st ++ [next_char];
        prefix := drop 1 (prefix st) ++ [next_char];
        random_state := g |}.

(** [for i in range(n)] *)
Fixpoint generate_loop (n : nat) (temperature : float) (st : loop_state rng)
  : result (loop_state rng) :=
  match n with
  | O => Ok st
  | S n =>
      st ← generate_step temperature st;
      generate_loop n temperature st
  end.

Definition generate_text (seed_string : str) (length : Z)
    (temperature : float) (g : rng) : result (str * rng) :=
  st ← generate_loop (Z.to_nat length) temperature
         {| generated := seed_string; prefix := seed_string;
            random_state := g |};
  Ok (generated st, random_state st).

End Generation.

(** ** Embeddings (notebook [Short_Intro_to_Embeddings_with_Keras], cells 5 and 6) *)

(** A two-dimensional array of shape [(length rows, ncols)]. *)
Record matrix : Type := Matrix {
  ncols : nat;
  rows : list (list R);
}.

Definition well_shaped (M : matrix) : Prop :=
  Forall (λ row, length row = ncols M) (rows M).

(** [np.eye(dim)] *)
Definition eye (dim : nat) : list (list R) :=
  (λ i, (λ j, if decide (i = j) then 1%R else 0%R) <$> seq 0 dim)
    <$> seq 0 dim.

(** [a[label]] on the first axis of a two-dimensional array *)
Definition row_at (a : list (list R)) (label : Z) : result (list R) :=
  i ← np_index (length a) label;
  match a !! i with
  | Some row => Ok row
  | None => Raise IndexError
  end.

Definition onehot_encode (dim : nat) (label : Z) : result (list R) :=
  row_at (eye dim) label.

(** [np.dot(v, M)] of a vector and a matrix: entry [j] is the sum over [i]
    of [v[i] * M[i, j]]; mismatched shapes are refused. *)
Definition dot (v : list R) (M : matrix) : result (list R) :=
  if decide (length v = length (rows M)) then
    Ok ((λ j, Rsum (zip_with (λ a row, a * default 0 (row !! j))%R v (rows M)))
          <$> seq 0 (ncols M))
  else Raise ValueError.

(** * Definitions used to state the properties *)

(** ** The sampler *)

(** The entry of [exp_preds] computed from an entry of [preds]. *)
Definition rescale (temperature p : float) : float :=
  f_exp (f_div (f_log p) temperature).

(** The category drawn is one of the categories offered. *)
Definition draw_in_range {rng} (draw : rng → list R → nat * rng) : Prop :=
  ∀ g ps, ps ≠ [] → (draw g ps).1 < length ps.

(** The real weight of an entry: zero for a zero entry, which [np.log] sends
    to [-inf] and [np.exp] back to [0]. *)
Definition weight (temperature p : R) : R :=
  if decide (p = 0)%R then 0%R else exp (ln p / temperature).

(** The weights handed to the draw: the entries divided by their sum. *)
Definition normalize (ws : list R) : list R := (λ w, w / Rsum ws)%R <$> ws.

(** The magnitudes of the [float64] values of the interval (0, 1]: at least
    the smallest positive float, [2^-1074], and either [1] or at most the
    float just below it, [1 - 2^-53]. *)
Definition float64_probability (p : R) : Prop :=
  (/ 2 ^ 1074 <= p ∧ (p = 1 ∨ p <= 1 - / 2 ^ 53))%R.

(** A real result that [float64] holds as it is, up to rounding: zero, or
    of a magnitude above the underflow threshold, and below the overflow
    threshold. *)
Definition in_range (r : R) : Prop :=
  (r = 0 ∨ underflow_threshold < Rabs r)%R ∧ (Rabs r < overflow_threshold)%R.

(** No intermediate result of [sample_one] on these entries and temperature
    overflows or underflows: neither the logarithms divided by the
    temperature, nor their exponentials, nor the sum of these, nor the
    renormalized weights. *)
Definition within_float_range (preds : list R) (temperature : R) : Prop :=
  Forall (λ p, p = 0%R ∨ in_range (ln p / temperature)
                         ∧ in_range (weight temperature p)) preds
  ∧ (Rsum (weight temperature <$> preds) < overflow_threshold)%R
  ∧ Forall (λ p, in_range (weight temperature p
                           / Rsum (weight temperature <$> preds))) preds.



(** The window the specification describes: the last [min(W, len(generated))]
    symbols of the sequence generated so far. *)
Definition spec_window (W : nat) (generated : str) : str :=
  drop (length generated - W) generated.

(** ** One-hot rows and vectors *)

Definition zero_row (n : nat) : list float := replicate n (Fin 0).

Definition onehot_row (n c : nat) : list float := <[c := Fin 1]> (zero_row n).

Global Instance float_eq_dec : EqDecision float.
Proof. solve_decision. Defined.

(** Number of entries of a row that are equal to [1.0]. *)
Definition ones (row : list float) : nat :=
  length (filter (λ v, v = Fin 1) row).

(** The vector with [1] at position [k] and [0] elsewhere. *)
Definition unit_vector (dim k : nat) : list R :=
  <[k := 1%R]> (replicate dim 0%R).

(** ** The scenario of the specification: a stub model and a fixed draw *)

Definition abc : str := list_ascii_of_string "abc".

Definition stub_model : tensor → list float :=
  λ _, [Fin 0.1; Fin 0.1; Fin 0.8].

(** A random source whose every draw selects category [k]. *)
Definition draw_index (k : nat) : unit → list R → nat * unit :=
  λ g _, (k, g).

(** The embedding matrix of the notebook: [np.arange(40).reshape(10, 4)]. *)
Definition embedding_matrix : matrix :=
  {| ncols := 4;
     rows := (λ i, (λ j, INR (4 * i + j)) <$> seq 0 4) <$> seq 0 10 |}.

(** * Further code of the notebooks *)

(** ** Cutting the corpus into training sequences (notebook cell 17) *)

(** [range(start, stop, step)] *)
Definition py_range (start stop step : Z) : result (list Z) :=
  if decide (step = 0)%Z then Raise ValueError
  else
    let n := if decide (0 < step)%Z
             then ((stop - start + step - 1) `div` step)%Z
             else ((start - stop - step - 1) `div` (- step))%Z in
    Ok ((λ k, start + Z.of_nat k * step)%Z <$> seq 0 (Z.to_nat n)).

(** A bound of a slice [s[a:b]] on a sequence of length [n]: a negative
    bound counts from the end, and bounds are clipped to [0, n]. *)
Definition slice_bound (n : nat) (i : Z) : nat :=
  if decide (i < 0)%Z then Z.to_nat (Z.max (i + Z.of_nat n) 0)
  else Z.to_nat (Z.min i (Z.of_nat n)).

(** [s[a:b]] *)
Definition py_slice {A} (s : list A) (a b : Z) : list A :=
  let lo := slice_bound (length s) a in
  let hi := slice_bound (length s) b in
  take (hi - lo) (drop lo s).

(** [s[i]] on a string *)
Definition str_index (s : str) (i : Z) : result char :=
  i ← np_index (length s) i;
  match s !! i with
  | Some c => Ok c
  | None => Raise IndexError
  end.

(** The body of the loop of [make_sequences], for the remaining values of
    [i]. *)
Fixpoint make_sequences_loop (text : str) (max_length : Z) (range : list Z)
    (sequences : list str) (next_chars : list char)
  : result (list str * list char) :=
  match range with
  | [] => Ok (sequences, next_chars)
  | i :: range =>
      let sequences := sequences ++ [py_slice text i (i + max_length)] in
      c ← str_index text (i + max_length);
      make_sequences_loop text max_length range sequences (next_chars ++ [c])
  end.

Definition make_sequences (text : str) (max_length step : Z)
  : result (list str * list char) :=
  range ← py_range 0 (Z.of_nat (length text) - max_length) step;
  make_sequences_loop text max_length range [] [].

(** ** The embedding matrix of the notebook (cell 1) *)

(** The [float32] nearest to the integer [k >= 0], ties to even: integers
    below [2^24] are floats; from there on the floats are the multiples of
    [2^e] between [2^(e+23)] and [2^(e+24)].  (No array is large enough for
    an index to overflow [float32].) *)
Definition round_float32 (k : Z) : Z :=
  if decide (k < 2 ^ 24)%Z then k
  else
    let ulp := (2 ^ (Z.log2 k - 23))%Z in
    let q := (k `div` ulp)%Z in
    let r := (k `mod` ulp)%Z in
    if decide (2 * r < ulp)%Z then (q * ulp)%Z
    else if decide (ulp < 2 * r)%Z then ((q + 1) * ulp)%Z
    else if Z.even q then (q * ulp)%Z else ((q + 1) * ulp)%Z.

(** [np.arange(n, dtype='float32')]: entry [k] is [k] converted to
    [float32]. *)
Definition arange (n : nat) : list R :=
  (λ k, IZR (round_float32 (Z.of_nat k))) <$> seq 0 n.

(** [a.reshape(nrows, ncols)] of a one-dimensional array: rows are cut in
    order; a size that does not match is refused. *)
Definition reshape (a : list R) (nrows ncols : nat) : result matrix :=
  if decide (length a = nrows * ncols) then
    Ok {| ncols := ncols;
          rows := (λ i, take ncols (drop (i * ncols) a)) <$> seq 0 nrows |}
  else Raise ValueError.

Definition make_embedding_matrix (embedding_size vocab_size : nat)
  : result matrix :=
  reshape (arange (embedding_size * vocab_size)) vocab_size embedding_size.

(** The strict order of the code points. *)
Definition char_lt (a b : char) : Prop := (ord a < ord b)%N.

(** The positions visited by the loop: the multiples of [step] below
    [stop]. *)
Definition starts (stop step : Z) : list nat :=
  (λ k, k * Z.to_nat step) <$> seq 0 (Z.to_nat ((stop + step - 1) `div` step)).

(** The entry [x[0, r, c]] of a tensor, if the position exists. *)
Definition cell (x : tensor) (r c : nat) : option float :=
  row ← x !! r; row !! c.

(** The loop of the vectorization, started at position [t], writes into
    row [r] and column [c]: some symbol [j] of [prefix] has index [c] and
    its row subscript [t + j + shift] designates row [r]. *)
Definition writes (text : str) (max_length : nat) (shift : Z) (t : nat)
    (prefix : str) (r c : nat) : Prop :=
  ∃ j ch, prefix !! j = Some ch
          ∧ char_indices text !! ch = Some c
          ∧ np_index max_length (Z.of_nat (t + j) + shift) = Ok r.

(** * Facts *)

(** ** Facts about the error monad and the vocabulary *)

Lemma bind_Ok_inv {A B} (r : result A) (k : A → result B) b :
  r ≫= k = Ok b → ∃ a, r = Ok a ∧ k a = Ok b.
Proof. destruct r as [a|e]; simpl; [eauto | discriminate]. Qed.


Lemma dict_list_to_map `{Countable K} {V} (pairs : list (K * V)) :
  dict pairs = list_to_map (reverse pairs).
Proof.
  unfold dict. induction pairs as [|kv pairs IH] using rev_ind; [done|].
  rewrite foldl_snoc, reverse_snoc, IH. done.
Qed.

Lemma dict_lookup_NoDup `{Countable K} {V} (pairs : list (K * V)) k v :
  NoDup pairs.*1 → dict pairs !! k = Some v ↔ (k, v) ∈ pairs.
Proof.
  intros Hnd. rewrite dict_list_to_map.
  rewrite <- elem_of_list_to_map; [by rewrite elem_of_reverse|].
  rewrite fmap_reverse, reverse_Permutation. done.
Qed.

Lemma elem_of_enumerate {A} (l : list A) i x :
  (i, x) ∈ enumerate l ↔ l !! i = Some x.
Proof.
  unfold enumerate. rewrite list_elem_of_lookup. split.
  - intros [j Hj]. apply lookup_zip_with_Some in Hj as (a & b & [= -> ->] & Ha & Hb).
    apply lookup_seq in Ha as [-> _]. done.
  - intros Hi. exists i. apply lookup_zip_with_Some. exists i, x.
    split_and!; [done| |done].
    apply lookup_seq. split; [done|]. by eapply lookup_lt_Some.
Qed.

Lemma enumerate_fst {A} (l : list A) : (enumerate l).*1 = seq 0 (length l).
Proof. unfold enumerate. apply fst_zip. by rewrite length_seq. Qed.

Lemma enumerate_snd {A} (l : list A) : (enumerate l).*2 = l.
Proof. unfold enumerate. apply snd_zip. by rewrite length_seq. Qed.

Lemma chars_Permutation text :
  chars text ≡ₚ elements (list_to_set text : gset char).
Proof. unfold chars, sorted. apply merge_sort_Permutation. Qed.

Lemma NoDup_chars text : NoDup (chars text).
Proof. rewrite chars_Permutation. apply NoDup_elements. Qed.

Lemma elem_of_chars text c : c ∈ chars text ↔ c ∈ text.
Proof.
  rewrite chars_Permutation, elem_of_elements, elem_of_list_to_set. done.
Qed.

Lemma char_indices_lookup text c i :
  char_indices text !! c = Some i ↔ chars text !! i = Some c.
Proof.
  unfold char_indices. rewrite dict_lookup_NoDup.
  - rewrite list_elem_of_fmap. split.
    + intros ([j d] & [= -> ->] & Hin). by apply elem_of_enumerate.
    + intros Hi. exists (i, c). split; [done|]. by apply elem_of_enumerate.
  - rewrite <- list_fmap_compose.
    change (NoDup (enumerate (chars text)).*2).
    rewrite enumerate_snd. apply NoDup_chars.
Qed.

Lemma indices_char_lookup text i :
  indices_char text !! i = chars text !! i.
Proof.
  apply option_eq. intros c. unfold indices_char.
  rewrite dict_lookup_NoDup.
  - rewrite list_elem_of_fmap. split.
    + intros ([j d] & [= -> ->] & Hin). by apply elem_of_enumerate.
    + intros Hi. exists (i, c). split; [done|]. by apply elem_of_enumerate.
  - rewrite <- list_fmap_compose.
    change (NoDup (enumerate (chars text)).*1).
    rewrite enumerate_fst. apply NoDup_seq.
Qed.

Lemma char_indices_is_Some text c :
  is_Some (char_indices text !! c) ↔ c ∈ text.
Proof.
  rewrite <- elem_of_chars, list_elem_of_lookup. unfold is_Some.
  setoid_rewrite char_indices_lookup. done.
Qed.

Lemma char_indices_lt text c i :
  char_indices text !! c = Some i → i < voc_size text.
Proof. rewrite char_indices_lookup. apply lookup_lt_Some. Qed.

Lemma indices_char_is_Some text i :
  is_Some (indices_char text !! i) ↔ i < voc_size text.
Proof. rewrite indices_char_lookup. apply lookup_lt_is_Some. Qed.

(** ** Facts about [argmax] *)

Lemma argmax_from_le best_i best i l :
  Forall (λ x, x ≤ best) l → argmax_from best_i best i l = best_i.
Proof.
  intros Hl. revert i. induction Hl as [|x l Hx _ IH]; intros i; simpl; [done|].
  case_decide; [lia|]. apply IH.
Qed.

Lemma argmax_from_onehot best_i i n k :
  k < n → argmax_from best_i 0 i (<[k := 1]> (replicate n 0)) = i + k.
Proof.
  revert best_i i k. induction n as [|n IH]; intros best_i i k Hk; [lia|].
  destruct k as [|k]; simpl.
  - rewrite argmax_from_le; [lia|].
    apply Forall_replicate. lia.
  - rewrite IH by lia. lia.
Qed.

Lemma argmax_onehot n k :
  k < n → argmax (<[k := 1]> (replicate n 0)) = Ok k.
Proof.
  intros Hk. destruct n as [|n]; [lia|]. destruct k as [|k]; simpl.
  - rewrite argmax_from_le; [done|]. apply Forall_replicate. lia.
  - rewrite argmax_from_onehot by lia. done.
Qed.

Lemma argmax_from_lt best_i best i l :
  best_i < i → argmax_from best_i best i l < i + length l.
Proof.
  revert best_i best i. induction l as [|x l IH]; intros best_i best i Hi; simpl.
  - lia.
  - case_decide.
    + specialize (IH i x (S i)). lia.
    + specialize (IH best_i best (S i)). lia.
Qed.

Lemma argmax_lt l k : argmax l = Ok k → k < length l.
Proof.
  destruct l as [|x l]; simpl; [discriminate|]. intros [= <-].
  pose proof (argmax_from_lt 0 x 1 l). lia.
Qed.

(** ** Facts about sums of reals *)

Lemma Rsum_nonneg l : Forall (λ x, 0 <= x)%R l → (0 <= Rsum l)%R.
Proof. induction 1 as [|x l Hx _ IH]; simpl; lra. Qed.

Lemma Rsum_elem_le l x :
  Forall (λ x, 0 <= x)%R l → x ∈ l → (x <= Rsum l)%R.
Proof.
  induction 1 as [|y l Hy Hl IH]; intros Hin.
  - by apply elem_of_nil in Hin.
  - pose proof (Rsum_nonneg l Hl).
    apply elem_of_cons in Hin as [->|Hin]; simpl; [lra|].
    specialize (IH Hin). lra.
Qed.

Lemma Rsum_pos l x :
  Forall (λ x, 0 <= x)%R l → x ∈ l → (0 < x)%R → (0 < Rsum l)%R.
Proof. intros Hl Hin Hx. pose proof (Rsum_elem_le l x Hl Hin). lra. Qed.

Lemma Rsum_removelast l :
  Forall (λ x, 0 <= x)%R l → (Rsum (removelast l) <= Rsum l)%R.
Proof.
  induction 1 as [|x l Hx Hl IH]; [simpl; lra|].
  destruct l as [|y l]; [simpl; lra|].
  change (removelast (x :: y :: l)) with (x :: removelast (y :: l)).
  simpl in *. lra.
Qed.

Lemma Rsum_scale l s : Rsum ((λ x, x / s)%R <$> l) = (Rsum l / s)%R.
Proof.
  induction l as [|x l IH]; csimpl.
  - unfold Rdiv. by rewrite Rmult_0_l.
  - fold (Rsum ((λ x, x / s)%R <$> l)). rewrite IH. fold (Rsum l).
    unfold Rdiv. by rewrite Rmult_plus_distr_r.
Qed.

Lemma normalize_length ws : length (normalize ws) = length ws.
Proof. unfold normalize. by rewrite length_fmap. Qed.

Lemma normalize_bounds ws :
  Forall (λ w, 0 <= w)%R ws → (0 < Rsum ws)%R →
  Forall (λ p, 0 <= p <= 1)%R (normalize ws).
Proof.
  intros Hws Hs. unfold normalize. apply Forall_fmap, Forall_forall.
  intros w Hw. simpl.
  pose proof (Rsum_elem_le ws w Hws Hw) as Hle.
  rewrite Forall_forall in Hws. specialize (Hws w Hw).
  assert (0 < / Rsum ws)%R as Hinv by (apply Rinv_0_lt_compat; lra).
  unfold Rdiv. split.
  - apply Rmult_le_pos; lra.
  - apply (Rmult_le_reg_r (Rsum ws)); [lra|].
    rewrite Rmult_assoc, Rinv_l by lra. lra.
Qed.

Lemma normalize_sum ws : (0 < Rsum ws)%R → Rsum (normalize ws) = 1%R.
Proof.
  intros Hs. unfold normalize. rewrite Rsum_scale. apply Rdiv_diag. lra.
Qed.


(** ** Facts about the range of floats *)

Lemma exp_le x y : (x <= y)%R → (exp x <= exp y)%R.
Proof.
  intros [Hlt| ->]; [|lra]. left. by apply exp_increasing.
Qed.

Lemma exp_opp x : exp (- x) = (/ exp x)%R.
Proof.
  pose proof (exp_pos x). apply (Rmult_eq_reg_l (exp x)); [|lra].
  rewrite <- exp_plus, Rinv_r by lra.
  replace (x + - x)%R with 0%R by lra. apply exp_0.
Qed.

Lemma exp_INR_bounds n : (2 ^ n <= exp (INR n) <= 4 ^ n)%R.
Proof.
  induction n as [|n IH].
  - simpl. rewrite exp_0. lra.
  - rewrite S_INR, exp_plus. pose proof exp_le_3. pose proof (exp_ineq1_le 1).
    pose proof (exp_pos (INR n)). pose proof (pow_lt 2 n ltac:(lra)).
    simpl. nra.
Qed.

(** Bounds of the exponential on [[-n, n]]. *)
Lemma exp_bounds n x :
  (- INR n <= x <= INR n)%R → (/ 4 ^ n <= exp x <= 4 ^ n)%R.
Proof.
  intros [Hlo Hhi]. pose proof (exp_INR_bounds n) as [_ Hn].
  pose proof (exp_pos (INR n)). split.
  - apply Rle_trans with (exp (- INR n)); [|by apply exp_le].
    rewrite exp_opp. apply Rinv_le_contravar; lra.
  - apply Rle_trans with (exp (INR n)); [by apply exp_le|done].
Qed.


Lemma ln_bounds p : (0 < p)%R → (1 - / p <= ln p <= p - 1)%R.
Proof.
  assert (∀ q, 0 < q → ln q <= q - 1)%R as Hup.
  { intros q Hq. pose proof (exp_ineq1_le (q - 1)) as Hexp.
    destruct (Rle_or_lt (ln q) (q - 1)) as [|Hlt]; [done|].
    apply exp_increasing in Hlt. rewrite exp_ln in Hlt by done. lra. }
  intros Hp. split; [|by apply Hup].
  pose proof (Rinv_0_lt_compat p Hp) as Hinv.
  pose proof (Hup (/ p)%R Hinv) as H. rewrite ln_Rinv in H by done. lra.
Qed.

Lemma thresholds : (0 < underflow_threshold < / 2 ^ 1000
                    ∧ 2 ^ 1000 < overflow_threshold)%R.
Proof. unfold underflow_threshold, overflow_threshold. lra. Qed.

Lemma in_range_0 : in_range 0.
Proof.
  pose proof thresholds. split; [by left|]. rewrite Rabs_R0. lra.
Qed.

Lemma in_range_pos r :
  (underflow_threshold < r < overflow_threshold)%R → in_range r.
Proof.
  intros [Hlo Hhi]. pose proof thresholds.
  unfold in_range. rewrite Rabs_pos_eq by lra. split; [by right|done].
Qed.

Lemma in_range_neg r :
  (- overflow_threshold < r < - underflow_threshold)%R → in_range r.
Proof.
  intros [Hlo Hhi]. pose proof thresholds.
  unfold in_range. rewrite Rabs_left by lra. split; [right|]; lra.
Qed.

Lemma f_round_in_range r : in_range r → f_round r = Fin r.
Proof.
  intros [Hlo Hhi]. apply Rabs_def2 in Hhi as [Hhi Hhi'].
  pose proof thresholds. unfold f_round.
  rewrite decide_False by lra. rewrite decide_False by lra.
  destruct Hlo as [->|Hlo].
  - rewrite decide_True; [done|]. rewrite Rabs_R0. lra.
  - rewrite decide_False by lra. done.
Qed.


Lemma f_round_sum_nonneg r :
  (0 <= r < overflow_threshold)%R → f_round_sum r = Fin r.
Proof.
  intros [Hlo Hhi]. pose proof thresholds. unfold f_round_sum.
  rewrite decide_False by lra. by rewrite decide_False by lra.
Qed.

(** ** Facts about float arrays *)

Lemma mapM_finite_Fin (ps : list R) : mapM finite (Fin <$> ps) = Some ps.
Proof.
  apply mapM_Some. induction ps; simpl; constructor; done.
Qed.

Lemma np_sum_Fin (ws : list R) :
  Forall (λ w, 0 <= w)%R ws → (Rsum ws < overflow_threshold)%R →
  np_sum (Fin <$> ws) = Fin (Rsum ws).
Proof.
  induction 1 as [|w ws Hw Hws IH]; intros Hs; csimpl; [done|].
  fold (np_sum (Fin <$> ws)). simpl in Hs. fold (Rsum ws) in Hs |- *.
  pose proof (Rsum_nonneg ws Hws).
  rewrite IH by lra. simpl. apply f_round_sum_nonneg. lra.
Qed.

Lemma fmap_f_div_Fin (ws : list R) s :
  s ≠ 0%R → Forall (λ w, in_range (w / s)) ws →
  (λ e, f_div e (Fin s)) <$> (Fin <$> ws) = Fin <$> ((λ w, w / s)%R <$> ws).
Proof.
  intros Hs Hws. rewrite <- !list_fmap_compose. apply Forall_fmap_ext_1.
  eapply Forall_impl; [exact Hws|]. intros w Hw. simpl.
  rewrite decide_False by done. by apply f_round_in_range.
Qed.

(** ** Facts about the sampler *)

Section SamplerFacts.
Context {rng : Type} (draw : rng → list R → nat * rng).

Lemma sample_one_rescale preds temperature g :
  sample_one draw preds temperature g =
    let exp_preds := rescale temperature <$> preds in
    '(probs, g) ← multinomial draw
                    ((λ e, f_div e (np_sum exp_preds)) <$> exp_preds) g;
    k ← argmax probs;
    mret (k, g).
Proof. unfold sample_one, rescale. by rewrite <- !list_fmap_compose. Qed.

Lemma multinomial_accepts (ps : list R) g :
  Forall (λ p, 0 <= p <= 1)%R ps →
  (Rsum (removelast ps) <= 1 + 1e-12)%R →
  multinomial draw (Fin <$> ps) g =
    Ok (<[(draw g ps).1 := 1]> (replicate (length ps) 0), (draw g ps).2).
Proof.
  intros Hb Hs. unfold multinomial. rewrite mapM_finite_Fin.
  rewrite decide_True by done. rewrite decide_False by lra.
  by destruct (draw g ps).
Qed.


(** Finite non-negative weights with a positive sum: the draw is made from
    the normalized weights and its category is returned. *)
Lemma sample_one_accepts preds temperature (ws : list R) g :
  rescale temperature <$> preds = Fin <$> ws →
  Forall (λ w, 0 <= w)%R ws →
  (0 < Rsum ws < overflow_threshold)%R →
  Forall (λ w, in_range (w / Rsum ws)) ws →
  (draw g (normalize ws)).1 < length ws →
  sample_one draw preds temperature g = Ok (draw g (normalize ws)).
Proof.
  intros He Hws [Hs Hs'] Hr Hk. rewrite sample_one_rescale. simpl. rewrite He.
  rewrite np_sum_Fin, fmap_f_div_Fin by (done || lra). fold (normalize ws).
  rewrite multinomial_accepts.
  - simpl. rewrite normalize_length, argmax_onehot by done. simpl.
    by destruct (draw g (normalize ws)).
  - by apply normalize_bounds.
  - pose proof (normalize_bounds ws Hws Hs) as Hb.
    assert (Forall (λ p, 0 <= p)%R (normalize ws)) as Hnn.
    { eapply Forall_impl; [exact Hb|]. simpl. intros; lra. }
    pose proof (Rsum_removelast _ Hnn). rewrite normalize_sum in * by done.
    lra.
Qed.


(** Whatever the draw, a returned index is a position of [preds]. *)
Lemma sample_one_lt preds temperature g k g' :
  sample_one draw preds temperature g = Ok (k, g') → k < length preds.
Proof.
  unfold sample_one. intros H.
  apply bind_Ok_inv in H as ([probs g1] & Hm & H).
  apply bind_Ok_inv in H as (k1 & Ha & [= -> ->]).
  apply argmax_lt in Ha. revert Hm. unfold multinomial.
  destruct (mapM finite _) as [ps|] eqn:Hps; [|done].
  repeat case_decide; try done.
  destruct (draw g ps) as [k2 g2]. intros [= <- <-].
  apply length_mapM in Hps.
  rewrite length_insert, length_replicate in Ha.
  rewrite !length_fmap in Hps. lia.
Qed.

End SamplerFacts.

(** *** The rescaled entry, case by case *)

Lemma rescale_pos t p :
  (0 < p)%R → t ≠ 0%R →
  in_range (ln p / t) → in_range (exp (ln p / t)) →
  rescale (Fin t) (Fin p) = Fin (exp (ln p / t)).
Proof.
  intros Hp Ht Hx He. unfold rescale. simpl.
  rewrite decide_True by done. simpl. rewrite decide_False by done.
  rewrite f_round_in_range by done. simpl. by apply f_round_in_range.
Qed.



Lemma rescale_zero t :
  rescale (Fin t) (Fin 0) = if decide (t < 0)%R then PInf else Fin 0.
Proof.
  unfold rescale. simpl.
  rewrite decide_False by lra. rewrite decide_True by done. simpl.
  by case_decide.
Qed.

Lemma rescale_weight t p :
  (0 < p ∧ t ≠ 0 ∨ p = 0 ∧ 0 < t)%R →
  (p = 0%R ∨ in_range (ln p / t) ∧ in_range (weight t p)) →
  rescale (Fin t) (Fin p) = Fin (weight t p).
Proof.
  unfold weight. intros [[Hp Ht]|[-> Ht]] Hr.
  - destruct Hr as [->|[Hx He]]; [lra|].
    rewrite decide_False in He |- * by lra. by rewrite rescale_pos.
  - rewrite rescale_zero. rewrite decide_False by lra.
    by rewrite decide_True by done.
Qed.


Lemma weight_nonneg t p : (0 <= weight t p)%R.
Proof.
  unfold weight. case_decide; [lra|]. left. apply exp_pos.
Qed.

Lemma weight_pos t p : p ≠ 0%R → (0 < weight t p)%R.
Proof. intros Hp. unfold weight. rewrite decide_False by done. apply exp_pos. Qed.

Lemma fmap_rescale_weight t (ps : list R) :
  Forall (λ p, 0 < p ∧ t ≠ 0 ∨ p = 0 ∧ 0 < t)%R ps →
  Forall (λ p, p = 0%R ∨ in_range (ln p / t) ∧ in_range (weight t p)) ps →
  rescale (Fin t) <$> (Fin <$> ps) = Fin <$> (weight t <$> ps).
Proof.
  intros Hps Hr. rewrite <- !list_fmap_compose. apply Forall_fmap_ext_1.
  rewrite Forall_forall in Hps, Hr. apply Forall_forall. intros p Hp. simpl.
  apply rescale_weight; auto.
Qed.


Section SamplerCases.
Context {rng : Type} (draw : rng → list R → nat * rng).



(** Success from real entries, in terms of [weight]. *)
Lemma sample_one_weights (ps : list R) t g :
  Forall (λ p, 0 < p ∧ t ≠ 0 ∨ p = 0 ∧ 0 < t)%R ps →
  Exists (λ p, p ≠ 0)%R ps →
  within_float_range ps t →
  (draw g (normalize (weight t <$> ps))).1 < length ps →
  sample_one draw (Fin <$> ps) (Fin t) g
    = Ok (draw g (normalize (weight t <$> ps))).
Proof.
  intros Hps Hex (Hr & Hs & Hn) Hk. apply sample_one_accepts.
  - by apply fmap_rescale_weight.
  - apply Forall_fmap, Forall_forall. intros p _. apply weight_nonneg.
  - split; [|done]. apply Exists_exists in Hex as (p & Hin & Hp).
    apply (Rsum_pos _ (weight t p)).
    + apply Forall_fmap, Forall_forall. intros q _. apply weight_nonneg.
    + apply list_elem_of_fmap. eauto.
    + by apply weight_pos.
  - by apply Forall_fmap.
  - by rewrite length_fmap.
Qed.

Lemma draw_in_range_weights (ps : list R) t g :
  draw_in_range draw → ps ≠ [] →
  (draw g (normalize (weight t <$> ps))).1 < length ps.
Proof.
  intros Hdraw Hne.
  rewrite <- (length_fmap (weight t) ps), <- normalize_length.
  apply Hdraw. unfold normalize. intros Hnil.
  by apply fmap_nil_inv, fmap_nil_inv in Hnil.
Qed.

End SamplerCases.

(** *** A sufficient condition for staying within the range of floats *)

Lemma Rsum_le_length (ws : list R) b :
  Forall (λ w, w <= b)%R ws → (Rsum ws <= INR (length ws) * b)%R.
Proof.
  induction 1 as [|w ws Hw _ IH]; [simpl; lra|].
  cbn [length]. rewrite S_INR. simpl. fold (Rsum ws). lra.
Qed.

Lemma weight_moderate t p :
  (/ 4 <= t <= 4)%R → (p = 1 ∨ / 16 <= p <= 15 / 16)%R →
  in_range (ln p / t) ∧ (/ 4 ^ 60 <= weight t p <= 4 ^ 60)%R.
Proof.
  intros Ht Hp.
  assert (- 60 <= ln p / t <= - / 64 ∨ ln p / t = 0)%R as Hx.
  { destruct Hp as [->|Hp].
    - right. rewrite ln_1. unfold Rdiv. lra.
    - left. pose proof (ln_bounds p ltac:(lra)) as [Hlo Hhi].
      assert (/ p <= 16)%R.
      { rewrite <- (Rinv_inv 16). apply Rinv_le_contravar; lra. }
      assert (/ 4 <= / t <= 4)%R as [Hu Hv].
      { split.
        - apply Rinv_le_contravar; lra.
        - rewrite <- (Rinv_inv 4). apply Rinv_le_contravar; lra. }
      unfold Rdiv. nra. }
  pose proof thresholds. split.
  - destruct Hx as [Hx| ->]; [|apply in_range_0].
    apply in_range_neg. lra.
  - unfold weight. rewrite decide_False by lra.
    pose proof (exp_bounds 60 (ln p / t)) as Hexp.
    replace (INR 60) with 60%R in Hexp by (rewrite INR_IZR_INZ; done).
    apply Hexp. lra.
Qed.

Lemma within_float_range_moderate (ps : list R) t :
  (/ 4 <= t <= 4)%R → length ps ≤ 1000 →
  Forall (λ p, p = 0 ∨ p = 1 ∨ / 16 <= p <= 15 / 16)%R ps →
  within_float_range ps t.
Proof.
  intros Ht Hlen Hps. pose proof thresholds as [[Hu0 Hu] Ho].
  assert (0 < / 4 ^ 60 ∧ / 2 ^ 1000 * (1000 * 4 ^ 60) < / 4 ^ 60
          ∧ 1000 * 4 ^ 60 < 2 ^ 1000 ∧ 0 < 4 ^ 60
          ∧ / 2 ^ 1000 < / 4 ^ 60)%R
    as (Hb0 & Hb1 & Hb2 & Hb3 & Hb4) by lra.
  set (b := (4 ^ 60)%R) in *.
  assert (Forall (λ p, p = 0 ∨ in_range (ln p / t)
                       ∧ / b <= weight t p <= b)%R ps) as Hw.
  { eapply Forall_impl; [exact Hps|]. intros p [->|Hp]; [by left|right].
    by apply weight_moderate. }
  assert (Forall (λ w, 0 <= w)%R (weight t <$> ps)) as Hnn.
  { apply Forall_fmap, Forall_forall. intros p _. apply weight_nonneg. }
  assert (Rsum (weight t <$> ps) <= 1000 * b)%R as Hsum.
  { apply Rle_trans with (INR (length (weight t <$> ps)) * b)%R.
    - apply Rsum_le_length, Forall_fmap.
      eapply Forall_impl; [exact Hw|]. intros p [->|[_ Hp]]; simpl; [|lra].
      unfold weight. rewrite decide_True by done. lra.
    - rewrite length_fmap. apply le_INR in Hlen.
      replace (INR 1000) with 1000%R in Hlen by (rewrite INR_IZR_INZ; done).
      nra. }
  split_and!.
  - eapply Forall_impl; [exact Hw|]. intros p [->|[Hx Hp]]; [by left|right].
    split; [done|]. apply in_range_pos. lra.
  - lra.
  - rewrite Forall_forall in Hw. apply Forall_forall. intros p Hin.
    destruct (Hw p Hin) as [->|[_ Hp]].
    + unfold weight at 1. rewrite decide_True by done.
      unfold Rdiv. rewrite Rmult_0_l. apply in_range_0.
    + assert (weight t p <= Rsum (weight t <$> ps))%R as Hle.
      { apply Rsum_elem_le; [done|]. apply list_elem_of_fmap. eauto. }
      set (s := Rsum (weight t <$> ps)) in *.
      set (w := weight t p) in *.
      assert (0 < s)%R by lra.
      apply in_range_pos. split.
      * apply (Rmult_lt_reg_r s); [done|].
        replace (w / s * s)%R with w by (field; lra). nra.
      * apply Rle_lt_trans with 1%R; [|lra].
        apply (Rmult_le_reg_r s); [done|].
        replace (w / s * s)%R with w by (field; lra). lra.
Qed.

(** ** Facts about rows, subscripts and the vectorization *)

Lemma Fin_0_ne_1 : Fin 0 ≠ Fin 1.
Proof. intros [= H]. lra. Qed.

Lemma ones_zero_row n : ones (zero_row n) = 0.
Proof.
  unfold ones, zero_row. induction n as [|n IH]; simpl; [done|].
  rewrite filter_cons_False by apply Fin_0_ne_1. done.
Qed.

Lemma ones_onehot_row n c : c < n → ones (onehot_row n c) = 1.
Proof.
  unfold ones, onehot_row, zero_row. revert c.
  induction n as [|n IH]; intros c Hc; [lia|].
  destruct c as [|c]; simpl.
  - rewrite filter_cons_True by done. simpl. f_equal. apply (ones_zero_row n).
  - rewrite filter_cons_False by apply Fin_0_ne_1. apply IH. lia.
Qed.

Lemma onehot_row_lookup n c j :
  c < n → j < n →
  onehot_row n c !! j = Some (if decide (j = c) then Fin 1 else Fin 0).
Proof.
  intros Hc Hj. unfold onehot_row, zero_row. case_decide as Hjc.
  - subst. apply list_lookup_insert_eq. by rewrite length_replicate.
  - rewrite list_lookup_insert_ne by done. by apply lookup_replicate_2.
Qed.

Lemma length_onehot_row n c : length (onehot_row n c) = n.
Proof. unfold onehot_row, zero_row. by rewrite length_insert, length_replicate. Qed.

Lemma np_index_nat n (i : nat) : i < n → np_index n (Z.of_nat i) = Ok i.
Proof.
  intros Hi. unfold np_index. rewrite decide_True by lia. by rewrite Nat2Z.id.
Qed.

Lemma np_index_wrap n (i : Z) :
  (- Z.of_nat n ≤ i < 0)%Z → np_index n i = Ok (Z.to_nat (i + Z.of_nat n)).
Proof.
  intros Hi. unfold np_index. rewrite decide_False by lia.
  by rewrite decide_True by lia.
Qed.

Lemma np_index_is_Ok n (i : Z) :
  (- Z.of_nat n ≤ i < Z.of_nat n)%Z → ∃ r, np_index n i = Ok r ∧ r < n.
Proof.
  intros Hi. unfold np_index. repeat case_decide; try lia; eexists; split; eauto; lia.
Qed.

Lemma np_index_out n (i : Z) :
  (i < - Z.of_nat n)%Z → np_index n i = Raise IndexError.
Proof.
  intros Hi. unfold np_index. rewrite decide_False by lia.
  by rewrite decide_False by lia.
Qed.

Section VectorizeFacts.
Variable text : str.
Variable max_length : nat.

Lemma getitem_char_indices ch :
  ch ∈ text →
  ∃ c, char_indices text !! ch = Some c ∧ c < voc_size text
       ∧ getitem (char_indices text) ch = Ok c.
Proof.
  intros Hin. apply char_indices_is_Some in Hin as [c Hc].
  exists c. split_and!; [done|by eapply char_indices_lt|].
  unfold getitem. by rewrite Hc.
Qed.

(** Windows that fit: the rows [before] are kept, the next rows, still
    zero, become the one-hot rows of the symbols. *)
Lemma vectorize_loop_fits (prefix : str) : ∀ t before after,
  Forall (λ ch, ch ∈ text) prefix →
  length before + length prefix + length after = max_length →
  ∃ cs,
    Forall2 (λ ch c, char_indices text !! ch = Some c ∧ c < voc_size text)
      prefix cs ∧
    vectorize_loop text max_length (Z.of_nat (length before) - Z.of_nat t)
      t prefix
      (before ++ replicate (length prefix) (zero_row (voc_size text)) ++ after)
    = Ok (before ++ (onehot_row (voc_size text) <$> cs) ++ after).
Proof.
  induction prefix as [|ch prefix IH]; intros t before after Hin Hlen.
  - exists []. split; [constructor|reflexivity].
  - apply Forall_cons in Hin as [Hch Hin]. simpl in Hlen.
    destruct (getitem_char_indices ch Hch) as (c & Hc & Hlt & Hget).
    destruct (IH (S t) (before ++ [onehot_row (voc_size text) c]) after Hin)
      as (cs & Hcs & Hloop).
    { rewrite length_app. simpl. lia. }
    exists (c :: cs). split; [by constructor|].
    simpl. rewrite Hget. simpl. unfold setitem.
    replace (Z.of_nat t + (Z.of_nat (length before) - Z.of_nat t))%Z
      with (Z.of_nat (length before)) by lia.
    rewrite (np_index_nat max_length) by lia. simpl.
    rewrite np_index_nat by done. simpl.
    rewrite alter_app_r_alt by lia. rewrite Nat.sub_diag. simpl.
    fold (onehot_row (voc_size text) c).
    rewrite length_app in Hloop. simpl in Hloop.
    replace (Z.of_nat (length before) - Z.of_nat t)%Z
      with (Z.of_nat (length before + 1) - Z.of_nat (S t))%Z by lia.
    rewrite <- (assoc_L (++)) in Hloop. simpl in Hloop.
    rewrite Hloop. by rewrite <- (assoc_L (++)).
Qed.

(** As long as every row subscript is within [-max_length, max_length),
    the loop completes and the shape is kept. *)
Lemma vectorize_loop_wraps (prefix : str) : ∀ shift t x,
  Forall (λ ch, ch ∈ text) prefix →
  length x = max_length →
  Forall (λ row, length row = voc_size text) x →
  (- Z.of_nat max_length ≤ Z.of_nat t + shift)%Z →
  (Z.of_nat t + Z.of_nat (length prefix) + shift ≤ Z.of_nat max_length)%Z →
  ∃ x', vectorize_loop text max_length shift t prefix x = Ok x'
        ∧ length x' = max_length
        ∧ Forall (λ row, length row = voc_size text) x'.
Proof.
  induction prefix as [|ch prefix IH]; intros shift t x Hin Hlen Hrows Hlo Hhi.
  - exists x. done.
  - apply Forall_cons in Hin as [Hch Hin]. simpl in Hhi.
    destruct (getitem_char_indices ch Hch) as (c & Hc & Hlt & Hget).
    destruct (np_index_is_Ok max_length (Z.of_nat t + shift)) as (r & Hr & Hrlt);
      [lia|].
    simpl. rewrite Hget. simpl. unfold setitem. rewrite Hr. simpl.
    rewrite np_index_nat by done. simpl.
    apply IH; [done| | |lia|lia].
    + by rewrite length_alter.
    + apply Forall_alter; [done|]. intros row _ Hrow.
      by rewrite length_insert.
Qed.

End VectorizeFacts.

(** ** Facts about the generation loop *)

Section GenerationFacts.
Context {rng : Type} (draw : rng → list R → nat * rng).
Variable text : str.
Variable max_length : nat.
Variable model : tensor → list float.

Lemma vectorize_succeeds (prefix : str) :
  Forall (λ ch, ch ∈ text) prefix →
  length prefix ≤ 2 * max_length →
  ∃ x, vectorize text max_length prefix = Ok x
       ∧ length x = max_length
       ∧ Forall (λ row, length row = voc_size text) x.
Proof.
  intros Hin Hlen. unfold vectorize. apply vectorize_loop_wraps.
  - done.
  - unfold zeros. by rewrite length_replicate.
  - unfold zeros. apply Forall_replicate. by rewrite length_replicate.
  - lia.
  - lia.
Qed.

Lemma generate_step_inv temperature st st' :
  generate_step draw text max_length model temperature st = Ok st' →
  ∃ x k ch,
    vectorize text max_length (prefix st) = Ok x
    ∧ sample_one draw (model x) temperature (random_state st)
        = Ok (k, random_state st')
    ∧ indices_char text !! k = Some ch
    ∧ generated st' = generated st ++ [ch]
    ∧ prefix st' = drop 1 (prefix st) ++ [ch].
Proof.
  unfold generate_step. intros H.
  apply bind_Ok_inv in H as (x & Hx & H).
  apply bind_Ok_inv in H as ([k g] & Hs & H).
  apply bind_Ok_inv in H as (ch & Hch & [= <-]).
  exists x, k, ch. simpl. split_and!; try done.
  unfold getitem in Hch. destruct (indices_char text !! k); congruence.
Qed.

Lemma generate_step_Ok temperature st x k g ch :
  vectorize text max_length (prefix st) = Ok x →
  sample_one draw (model x) temperature (random_state st) = Ok (k, g) →
  indices_char text !! k = Some ch →
  generate_step draw text max_length model temperature st
    = Ok {| generated := generated st ++ [ch];
            prefix := drop 1 (prefix st) ++ [ch];
            random_state := g |}.
Proof.
  intros Hx Hs Hch. unfold generate_step. rewrite Hx. simpl.
  rewrite Hs. simpl. unfold getitem. by rewrite Hch.
Qed.

(** The loop appends one symbol per iteration. *)
Lemma generate_loop_generated n temperature : ∀ st st',
  generate_loop draw text max_length model n temperature st = Ok st' →
  ∃ sampled, length sampled = n ∧ generated st' = generated st ++ sampled.
Proof.
  induction n as [|n IH]; intros st st' H; simpl in H.
  - injection H as <-. exists []. by rewrite app_nil_r.
  - apply bind_Ok_inv in H as (st1 & Hstep & Hloop).
    apply generate_step_inv in Hstep as (x & k & ch & _ & _ & _ & Hgen & _).
    apply IH in Hloop as (sampled & Hlen & Hgen').
    exists (ch :: sampled). split; [simpl; lia|].
    rewrite Hgen', Hgen. by rewrite <- (assoc_L (++)).
Qed.

(** The window keeps the length of a non-empty seed: each iteration drops
    one symbol and appends one. *)
Lemma generate_loop_prefix_length n temperature : ∀ st st',
  generate_loop draw text max_length model n temperature st = Ok st' →
  prefix st ≠ [] →
  length (prefix st') = length (prefix st).
Proof.
  induction n as [|n IH]; intros st st' H Hne; simpl in H.
  - by injection H as <-.
  - apply bind_Ok_inv in H as (st1 & Hstep & Hloop).
    apply generate_step_inv in Hstep as (x & k & ch & _ & _ & _ & _ & Hpre).
    assert (length (prefix st1) = length (prefix st)) as Hlen.
    { rewrite Hpre, length_app, length_drop. simpl.
      destruct (prefix st); [done|simpl; lia]. }
    rewrite <- Hlen. apply IH; [done|].
    rewrite Hpre. by destruct (drop 1 (prefix st)).
Qed.

End GenerationFacts.

(** ** Facts about the scenario *)

Lemma sample_one_stub g :
  sample_one (draw_index 2) [Fin 0.1; Fin 0.1; Fin 0.8] (Fin 1) g = Ok (2, g).
Proof.
  change [Fin 0.1; Fin 0.1; Fin 0.8] with (Fin <$> [0.1; 0.1; 0.8]%R).
  rewrite sample_one_weights; [done| | | |simpl; lia].
  - repeat apply Forall_cons_2; [left; lra..|constructor].
  - constructor. lra.
  - apply within_float_range_moderate; [lra|simpl; lia|].
    repeat apply Forall_cons_2; [right; right; lra..|constructor].
Qed.

Lemma elem_of_abc_snoc (p : str) :
  Forall (λ ch, ch ∈ abc) p →
  Forall (λ ch, ch ∈ abc) (drop 1 p ++ ["c"%char]).
Proof.
  intros Hp. apply Forall_app. split.
  - by apply Forall_drop.
  - repeat constructor.
Qed.

Lemma generate_step_stub W (st : loop_state unit) :
  Forall (λ ch, ch ∈ abc) (prefix st) →
  length (prefix st) ≤ 2 * W →
  generate_step (draw_index 2) abc W stub_model (Fin 1) st
    = Ok {| generated := generated st ++ ["c"%char];
            prefix := drop 1 (prefix st) ++ ["c"%char];
            random_state := random_state st |}.
Proof.
  intros Hin Hlen.
  destruct (vectorize_succeeds abc W (prefix st) Hin Hlen) as (x & Hx & _).
  apply (generate_step_Ok _ _ _ _ _ _ x 2).
  - done.
  - apply sample_one_stub.
  - vm_compute. reflexivity.
Qed.

Lemma generate_loop_stub W n : ∀ st : loop_state unit,
  Forall (λ ch, ch ∈ abc) (prefix st) →
  length (prefix st) ≤ 2 * W → 1 ≤ W →
  ∃ p, generate_loop (draw_index 2) abc W stub_model n (Fin 1) st
       = Ok {| generated := generated st ++ replicate n "c"%char;
               prefix := p;
               random_state := random_state st |}.
Proof.
  induction n as [|n IH]; intros st Hin Hlen HW.
  - exists (prefix st). simpl. rewrite app_nil_r. by destruct st.
  - cbn [generate_loop]. rewrite generate_step_stub by done.
    edestruct (IH {| generated := generated st ++ ["c"%char];
                     prefix := drop 1 (prefix st) ++ ["c"%char];
                     random_state := random_state st |}) as (p & Hp).
    + by apply elem_of_abc_snoc.
    + simpl. rewrite length_app, length_drop. simpl. lia.
    + done.
    + exists p. cbn [mbind result_bind]. rewrite Hp. simpl.
      by rewrite <- (assoc_L (++)).
Qed.

Lemma draw_index_0_in_range : draw_in_range (draw_index 0).
Proof. intros g [|p ps] Hne; [done|simpl; lia]. Qed.

Lemma generate_text_stub W (seed_string : str) (n : nat) :
  Forall (λ ch, ch ∈ abc) seed_string →
  length seed_string ≤ 2 * W → 1 ≤ W →
  generate_text (draw_index 2) abc W stub_model seed_string (Z.of_nat n)
    (Fin 1) ()
  = Ok (seed_string ++ replicate n "c"%char, ()).
Proof.
  intros Hin Hlen HW. unfold generate_text. rewrite Nat2Z.id.
  destruct (generate_loop_stub W n
              {| generated := seed_string; prefix := seed_string;
                 random_state := () |} Hin Hlen HW) as (p & ->).
  reflexivity.
Qed.

(** ** Facts about the embedding *)

Lemma eye_lookup dim k : k < dim → eye dim !! k = Some (unit_vector dim k).
Proof.
  intros Hk. unfold eye. rewrite list_lookup_fmap, lookup_seq_lt by done.
  simpl. f_equal. apply list_eq. intros j. unfold unit_vector.
  rewrite list_lookup_fmap.
  destruct (decide (j < dim)) as [Hj|Hj].
  - rewrite lookup_seq_lt by done. simpl. case_decide as Hkj.
    + subst. symmetry. apply list_lookup_insert_eq. by rewrite length_replicate.
    + rewrite list_lookup_insert_ne by done. symmetry. by apply lookup_replicate_2.
  - rewrite lookup_seq_ge by lia. symmetry. apply lookup_ge_None.
    rewrite length_insert, length_replicate. lia.
Qed.

Lemma length_eye dim : length (eye dim) = dim.
Proof. unfold eye. by rewrite length_fmap, length_seq. Qed.

Lemma dot_zero_column (f : list R → R) (l : list (list R)) : ∀ n,
  Rsum (zip_with (λ a row, a * f row)%R (replicate n 0%R) l) = 0%R.
Proof.
  induction l as [|row l IH]; intros [|n]; simpl; try done.
  rewrite IH. lra.
Qed.

Lemma dot_unit_column (f : list R → R) (l : list (list R)) : ∀ k row,
  l !! k = Some row →
  Rsum (zip_with (λ a row, a * f row)%R (unit_vector (length l) k) l) = f row.
Proof.
  unfold unit_vector.
  induction l as [|row0 l IH]; intros k row Hk; [done|].
  destruct k as [|k]; simpl in *.
  - injection Hk as ->. rewrite dot_zero_column. lra.
  - rewrite (IH k row Hk). lra.
Qed.

Lemma fmap_lookup_seq (row : list R) :
  (λ j, default 0%R (row !! j)) <$> seq 0 (length row) = row.
Proof.
  apply list_eq. intros j. rewrite list_lookup_fmap.
  destruct (decide (j < length row)) as [Hj|Hj].
  - rewrite lookup_seq_lt by done. simpl.
    destruct (lookup_lt_is_Some_2 row j Hj) as [x Hx]. by rewrite Hx.
  - rewrite lookup_seq_ge by lia. symmetry. apply lookup_ge_None. lia.
Qed.

(** ** Counting the one-hot rows *)

Lemma filter_zero_rows n V :
  filter (λ row, ones row = 1) (replicate n (zero_row V)) = [].
Proof.
  induction n as [|n IH]; simpl; [done|].
  rewrite filter_cons_False; [done|]. rewrite ones_zero_row. lia.
Qed.

Lemma filter_onehot_rows V (cs : list nat) :
  Forall (λ c, c < V) cs →
  filter (λ row, ones row = 1) (onehot_row V <$> cs) = onehot_row V <$> cs.
Proof.
  induction 1 as [|c cs Hc _ IH]; csimpl; [done|].
  rewrite filter_cons_True by (by apply ones_onehot_row). by rewrite IH.
Qed.

(** * The claims *)







(** C3 (as the code has it): the vectorization does not check the length of
    the window.  For a window over the vocabulary that is longer than
    [max_length], the row subscript [t + shift] is negative: up to twice
    [max_length] symbols every subscript wraps around, nothing is raised
    and a tensor of shape [(max_length, voc_size)] comes out; beyond that
    the first write is out of bounds and numpy raises [IndexError]. *)
Theorem vectorize_long_window (text : str) (max_length : nat) (window : str) :
  Forall (λ ch, ch ∈ text) window →
  max_length < length window →
  (length window ≤ 2 * max_length →
     ∃ x, vectorize text max_length window = Ok x
          ∧ length x = max_length
          ∧ Forall (λ row, length row = voc_size text) x)
  ∧ (2 * max_length < length window →
     vectorize text max_length window = Raise IndexError).
Proof.
  intros Hin Hlong. split.
  - intros Hle. by apply vectorize_succeeds.
  - intros Hgt. destruct window as [|ch window]; [simpl in *; lia|].
    apply Forall_cons in Hin as [Hch _].
    destruct (getitem_char_indices text ch Hch) as (c & _ & _ & Hget).
    unfold vectorize. cbn [vectorize_loop]. rewrite Hget.
    cbn [mbind result_bind]. unfold setitem.
    rewrite (np_index_out max_length); [reflexivity|]. simpl length in *. lia.
Qed.

Lemma vectorize_long_window_witness :
  (length (list_ascii_of_string "abcba") ≤ 2 * 3 →
     ∃ x, vectorize abc 3 (list_ascii_of_string "abcba") = Ok x
          ∧ length x = 3
          ∧ Forall (λ row, length row = voc_size abc) x)
  ∧ (2 * 3 < length (list_ascii_of_string "abcba") →
     vectorize abc 3 (list_ascii_of_string "abcba") = Raise IndexError).
Proof.
  apply (vectorize_long_window abc 3 (list_ascii_of_string "abcba")).
  - repeat constructor.
  - simpl. lia.
Defined.

(** C3, the input named by the specification: a window of length 5 with
    window size 3 is vectorized without any error; rows 1 and 2 receive two
    symbols each. *)
Lemma vectorize_length_5_succeeds :
  vectorize abc 3 (list_ascii_of_string "abcba")
    = Ok [[Fin 0; Fin 0; Fin 1]; [Fin 1; Fin 1; Fin 0]; [Fin 1; Fin 1; Fin 0]]
  ∧ ¬ ∃ e, vectorize abc 3 (list_ascii_of_string "abcba") = Raise e.
Proof.
  assert (vectorize abc 3 (list_ascii_of_string "abcba")
    = Ok [[Fin 0; Fin 0; Fin 1]; [Fin 1; Fin 1; Fin 0]; [Fin 1; Fin 1; Fin 0]])
    as Hok by (vm_compute; reflexivity).
  split; [done|]. intros [e He]. congruence.
Qed.

(** C4: a window of [k ≤ max_length] symbols of the vocabulary is vectorized
    into a tensor of shape [(max_length, voc_size)] whose first
    [max_length - k] rows are zero and whose last [k] rows are the one-hot
    rows of the symbols, row [t + shift] having its single [1] in the column
    [char_indices[window[t]]]; exactly [k] rows contain a single [1]. *)
Theorem vectorize_right_aligned (text : str) (max_length : nat) (window : str) :
  Forall (λ ch, ch ∈ text) window →
  length window ≤ max_length →
  ∃ x cs,
    vectorize text max_length window = Ok x
    ∧ Forall2 (λ ch c, char_indices text !! ch = Some c ∧ c < voc_size text)
        window cs
    ∧ x = replicate (max_length - length window) (zero_row (voc_size text))
            ++ (onehot_row (voc_size text) <$> cs)
    ∧ length x = max_length
    ∧ Forall (λ row, length row = voc_size text) x
    ∧ (∀ r, r < max_length - length window →
         x !! r = Some (zero_row (voc_size text)))
    ∧ (∀ t c, cs !! t = Some c →
         x !! (t + (max_length - length window))
           = Some (onehot_row (voc_size text) c)
         ∧ ones (onehot_row (voc_size text) c) = 1)
    ∧ length (filter (λ row, ones row = 1) x) = length window.
Proof.
  intros Hin Hlen.
  destruct (vectorize_loop_fits text max_length window 0
              (replicate (max_length - length window) (zero_row (voc_size text)))
              []) as (cs & Hcs & Hloop); [done| |].
  { rewrite length_replicate. simpl. lia. }
  rewrite length_replicate, !app_nil_r in Hloop.
  pose proof (Forall2_length _ _ _ Hcs) as Hlcs.
  eexists _, cs. split_and!; [| exact Hcs | reflexivity | | | | |].
  - unfold vectorize, zeros. rewrite <- Hloop. f_equal; [lia|].
    rewrite <- replicate_add. f_equal. lia.
  - rewrite length_app, length_replicate, length_fmap. lia.
  - apply Forall_app. split.
    + apply Forall_replicate. unfold zero_row. by rewrite length_replicate.
    + apply Forall_fmap, Forall_forall. intros c _. apply length_onehot_row.
  - intros r Hr. rewrite lookup_app_l by (rewrite length_replicate; lia).
    by apply lookup_replicate_2.
  - intros t c Ht. split.
    + rewrite lookup_app_r by (rewrite length_replicate; lia).
      rewrite length_replicate.
      replace (t + (max_length - length window) - (max_length - length window))
        with t by lia.
      by rewrite list_lookup_fmap, Ht.
    + apply ones_onehot_row.
      destruct (Forall2_lookup_r _ _ _ _ _ Hcs Ht) as (ch & _ & _ & Hlt). done.
  - rewrite filter_app, filter_zero_rows, filter_onehot_rows.
    + simpl. rewrite length_fmap. lia.
    + eapply Forall2_Forall_r; [exact Hcs|]. apply Forall_true.
      intros ch c [_ Hlt]. exact Hlt.
Qed.

Lemma vectorize_right_aligned_witness :
  ∃ x cs,
    vectorize abc 3 (list_ascii_of_string "cb") = Ok x
    ∧ Forall2 (λ ch c, char_indices abc !! ch = Some c ∧ c < voc_size abc)
        (list_ascii_of_string "cb") cs
    ∧ x = replicate (3 - length (list_ascii_of_string "cb"))
            (zero_row (voc_size abc))
            ++ (onehot_row (voc_size abc) <$> cs)
    ∧ length x = 3
    ∧ Forall (λ row, length row = voc_size abc) x
    ∧ (∀ r, r < 3 - length (list_ascii_of_string "cb") →
         x !! r = Some (zero_row (voc_size abc)))
    ∧ (∀ t c, cs !! t = Some c →
         x !! (t + (3 - length (list_ascii_of_string "cb")))
           = Some (onehot_row (voc_size abc) c)
         ∧ ones (onehot_row (voc_size abc) c) = 1)
    ∧ length (filter (λ row, ones row = 1) x)
        = length (list_ascii_of_string "cb").
Proof.
  apply (vectorize_right_aligned abc 3 (list_ascii_of_string "cb")).
  - repeat constructor.
  - simpl. lia.
Defined.

Example vectorize_cb :
  vectorize abc 3 (list_ascii_of_string "cb")
    = Ok [[Fin 0; Fin 0; Fin 0]; [Fin 0; Fin 0; Fin 1]; [Fin 0; Fin 1; Fin 0]].
Proof. vm_compute. reflexivity. Qed.

(** C6: for every symbol of the corpus from which the vocabulary is built,
    [char_indices] gives an index below [voc_size] and [indices_char] maps
    this index back to the symbol. *)
Theorem vocabulary_round_trip (text : str) (s : char) :
  s ∈ text →
  ∃ i, getitem (char_indices text) s = Ok i
       ∧ i < voc_size text
       ∧ getitem (indices_char text) i = Ok s.
Proof.
  intros Hs. destruct (getitem_char_indices text s Hs) as (i & Hi & Hlt & Hget).
  exists i. split_and!; [done..|].
  unfold getitem. rewrite indices_char_lookup.
  apply char_indices_lookup in Hi. by rewrite Hi.
Qed.

Lemma vocabulary_round_trip_witness :
  ∃ i, getitem (char_indices (list_ascii_of_string "hello")) "l"%char = Ok i
       ∧ i < voc_size (list_ascii_of_string "hello")
       ∧ getitem (indices_char (list_ascii_of_string "hello")) i = Ok "l"%char.
Proof.
  apply (vocabulary_round_trip (list_ascii_of_string "hello") "l"%char).
  repeat constructor.
Defined.

Example chars_hello :
  chars (list_ascii_of_string "hello") = list_ascii_of_string "ehlo".
Proof. vm_compute. reflexivity. Qed.

(** C5 (what the code does on a seed shorter than the window size): with
    window size 2 and seed ["a"], after the first iteration two symbols are
    generated, yet the window for the next iteration is the single symbol
    ["c"], not the last two symbols ["ac"]. *)
Theorem generate_window_does_not_grow :
  ∃ st, generate_loop (draw_index 2) abc 2 stub_model 1 (Fin 1)
          {| generated := list_ascii_of_string "a";
             prefix := list_ascii_of_string "a";
             random_state := () |} = Ok st
        ∧ generated st = list_ascii_of_string "ac"
        ∧ prefix st = list_ascii_of_string "c"
        ∧ spec_window 2 (generated st) = list_ascii_of_string "ac"
        ∧ prefix st ≠ spec_window 2 (generated st).
Proof.
  eexists. split.
  - cbn [generate_loop]. rewrite generate_step_stub.
    + reflexivity.
    + repeat constructor.
    + simpl. lia.
  - simpl. split_and!; done.
Qed.

(** C7: whenever [generate_text] returns, for a non-negative [length], the
    result is the seed string followed by the sampled symbols, and its
    length is [len(seed_string) + length]. *)
Theorem generate_text_length {rng} (draw : rng → list R → nat * rng)
    (text : str) (max_length : nat) (model : tensor → list float)
    (seed_string : str) (length : Z) (temperature : float) (g g' : rng)
    (s : str) :
  (0 ≤ length)%Z →
  generate_text draw text max_length model seed_string length temperature g
    = Ok (s, g') →
  ∃ sampled, s = seed_string ++ sampled
             ∧ Z.of_nat (List.length s)
               = (Z.of_nat (List.length seed_string) + length)%Z.
Proof.
  intros Hlen H. unfold generate_text in H.
  apply bind_Ok_inv in H as (st & Hloop & [= <- <-]).
  apply generate_loop_generated in Hloop as (sampled & Hn & Hgen).
  simpl in Hgen. exists sampled. split; [done|].
  rewrite Hgen, length_app. lia.
Qed.

Lemma generate_text_length_witness :
  ∃ sampled,
    list_ascii_of_string "abcc" = list_ascii_of_string "ab" ++ sampled
    ∧ Z.of_nat (List.length (list_ascii_of_string "abcc"))
      = (Z.of_nat (List.length (list_ascii_of_string "ab")) + 2)%Z.
Proof.
  apply (generate_text_length (draw_index 2) abc 2 stub_model
           (list_ascii_of_string "ab") 2 (Fin 1) () ()).
  - lia.
  - apply (generate_text_stub 2 (list_ascii_of_string "ab") 2).
    + repeat constructor.
    + simpl. lia.
    + lia.
Defined.

(** C8: the scenario of the specification.  The vocabulary of the corpus
    ["abc"] indexes ['a'], ['b'], ['c'] by 0, 1, 2; with window size 2, an
    empty seed, the stub model returning [[0.1, 0.1, 0.8]], temperature
    [1.0] and a random source whose every draw selects index 2, three steps
    of generation return ["ccc"]. *)
Theorem generate_text_ccc :
  chars abc = list_ascii_of_string "abc"
  ∧ char_indices abc !! "a"%char = Some 0
  ∧ char_indices abc !! "b"%char = Some 1
  ∧ char_indices abc !! "c"%char = Some 2
  ∧ generate_text (draw_index 2) abc 2 stub_model [] 3 (Fin 1) ()
    = Ok (list_ascii_of_string "ccc", ()).
Proof.
  split_and!; try (vm_compute; reflexivity).
  apply (generate_text_stub 2 [] 3); [constructor|simpl; lia|lia].
Qed.

(** C9: an index returned by [sample_one] is a position of the vector it was
    given, whatever the entries; hence when this vector has [voc_size]
    entries the lookup [indices_char[next_index]] finds a symbol, and an
    iteration of the generation loop whose model output is this vector
    completes with that symbol appended. *)
Theorem sample_one_index_in_range {rng} (draw : rng → list R → nat * rng)
    (text : str) (max_length : nat) (model : tensor → list float)
    (preds : list float) (temperature : float) (g g' : rng) (k : nat) :
  sample_one draw preds temperature g = Ok (k, g') →
  k < length preds
  ∧ (length preds = voc_size text →
     ∃ next_char,
       getitem (indices_char text) k = Ok next_char
       ∧ ∀ st x,
           vectorize text max_length (prefix st) = Ok x →
           model x = preds → random_state st = g →
           generate_step draw text max_length model temperature st
           = Ok {| generated := generated st ++ [next_char];
                   prefix := drop 1 (prefix st) ++ [next_char];
                   random_state := g' |}).
Proof.
  intros Hs. pose proof (sample_one_lt _ _ _ _ _ _ Hs) as Hlt.
  split; [done|]. intros Hvoc.
  destruct (proj2 (indices_char_is_Some text k)) as [ch Hch]; [lia|].
  exists ch. split.
  - unfold getitem. by rewrite Hch.
  - intros st x Hx <- <-. by eapply generate_step_Ok.
Qed.

Lemma sample_one_index_in_range_witness :
  2 < length [Fin 0.1; Fin 0.1; Fin 0.8]
  ∧ (length [Fin 0.1; Fin 0.1; Fin 0.8] = voc_size abc →
     ∃ next_char,
       getitem (indices_char abc) 2 = Ok next_char
       ∧ ∀ st x,
           vectorize abc 2 (prefix st) = Ok x →
           stub_model x = [Fin 0.1; Fin 0.1; Fin 0.8] → random_state st = () →
           generate_step (draw_index 2) abc 2 stub_model (Fin 1) st
           = Ok {| generated := generated st ++ [next_char];
                   prefix := drop 1 (prefix st) ++ [next_char];
                   random_state := () |}).
Proof.
  apply (sample_one_index_in_range (draw_index 2) abc 2 stub_model
           [Fin 0.1; Fin 0.1; Fin 0.8] (Fin 1) () () 2).
  apply sample_one_stub.
Defined.

(** C10: for a matrix with [dim] rows and a label within [0, dim),
    [onehot_encode(dim, label)] is the vector with [1] at position [label]
    and [0] elsewhere, and its dot product with the matrix is the row
    [M[label]] of the matrix. *)
Theorem onehot_dot_is_row (dim : nat) (label : Z) (M : matrix) :
  well_shaped M →
  length (rows M) = dim →
  (0 ≤ label < Z.of_nat dim)%Z →
  ∃ row,
    onehot_encode dim label = Ok (unit_vector dim (Z.to_nat label))
    ∧ row_at (rows M) label = Ok row
    ∧ (v ← onehot_encode dim label; dot v M) = Ok row.
Proof.
  intros Hshape Hrows Hlabel.
  destruct (lookup_lt_is_Some_2 (rows M) (Z.to_nat label)) as [row Hrow]; [lia|].
  assert (onehot_encode dim label = Ok (unit_vector dim (Z.to_nat label))) as Hv.
  { unfold onehot_encode, row_at. rewrite length_eye.
    unfold np_index. rewrite decide_True by done. simpl.
    rewrite eye_lookup by lia. done. }
  exists row. split_and!; [done| |].
  - unfold row_at, np_index. rewrite Hrows, decide_True by done. simpl.
    by rewrite Hrow.
  - rewrite Hv. simpl. unfold dot.
    rewrite decide_True
      by (unfold unit_vector; by rewrite length_insert, length_replicate).
    f_equal. rewrite <- Hrows.
    transitivity ((λ j, default 0%R (row !! j)) <$> seq 0 (ncols M)).
    + apply list_fmap_ext. intros i j _. simpl.
      apply (dot_unit_column (λ r, default 0%R (r !! j))). done.
    + unfold well_shaped in Hshape. rewrite Forall_forall in Hshape.
      rewrite <- (Hshape row) by (by eapply list_elem_of_lookup_2).
      apply fmap_lookup_seq.
Qed.

Lemma onehot_dot_is_row_witness :
  ∃ row,
    onehot_encode 10 3 = Ok (unit_vector 10 (Z.to_nat 3))
    ∧ row_at (rows embedding_matrix) 3 = Ok row
    ∧ (v ← onehot_encode 10 3; dot v embedding_matrix) = Ok row.
Proof.
  apply (onehot_dot_is_row 10 3 embedding_matrix).
  - unfold well_shaped, embedding_matrix. simpl. repeat constructor.
  - reflexivity.
  - lia.
Defined.

Example embedding_row_3 :
  row_at (rows embedding_matrix) 3 = Ok [INR 12; INR 13; INR 14; INR 15].
Proof. reflexivity. Qed.

(** * Further properties of the code *)

(** ** More facts about the vocabulary *)

Lemma ord_inj a b : ord a = ord b → a = b.
Proof.
  unfold ord. intros H.
  rewrite <- (ascii_N_embedding a), <- (ascii_N_embedding b). by rewrite H.
Qed.

Lemma char_le_total : Total char_le.
Proof. intros a b. unfold char_le. lia. Qed.

Lemma char_le_trans : Transitive char_le.
Proof. intros a b c. unfold char_le. lia. Qed.

Lemma StronglySorted_lookup_lt {A} (R : relation A) l i j x y :
  StronglySorted R l → l !! i = Some x → l !! j = Some y → i < j → R x y.
Proof.
  intros Hl. revert i j. induction Hl as [|z l Hl IH Hz]; intros i j Hi Hj Hlt.
  - done.
  - destruct j as [|j]; [lia|]. simpl in Hj. destruct i as [|i]; simpl in Hi.
    + injection Hi as ->. rewrite Forall_forall in Hz. apply Hz.
      by eapply list_elem_of_lookup_2.
    + eapply IH; eauto. lia.
Qed.

Lemma chars_StronglySorted_le text : StronglySorted char_le (chars text).
Proof.
  unfold chars, sorted.
  apply StronglySorted_merge_sort; [apply char_le_trans|apply char_le_total].
Qed.

Lemma chars_lookup_lt text i j a b :
  chars text !! i = Some a → chars text !! j = Some b → i < j → char_lt a b.
Proof.
  intros Hi Hj Hlt.
  pose proof (StronglySorted_lookup_lt _ _ _ _ _ _
                (chars_StronglySorted_le text) Hi Hj Hlt) as Hle.
  unfold char_lt, char_le in *.
  destruct (decide (ord a = ord b)) as [Heq|]; [|lia].
  apply ord_inj in Heq as ->.
  pose proof (NoDup_lookup _ _ _ _ (NoDup_chars text) Hi Hj). lia.
Qed.

(** X1: [chars] lists the symbols in strictly increasing order of their code
    points, hence without repetition, and its symbols are exactly those
    that occur in the corpus. *)
Theorem chars_strictly_sorted text :
  StronglySorted char_lt (chars text)
  ∧ ∀ c, c ∈ chars text ↔ c ∈ text.
Proof.
  split; [|apply elem_of_chars].
  assert (∀ l, NoDup l → StronglySorted char_le l → StronglySorted char_lt l)
    as Hstrict.
  { induction 1 as [|a l Ha Hl IH]; intros Hs; [constructor|].
    apply StronglySorted_cons in Hs as [Hall Hs].
    constructor; [by apply IH|].
    rewrite Forall_forall in Hall. apply Forall_forall. intros b Hb.
    specialize (Hall b Hb). unfold char_lt, char_le in *.
    destruct (decide (ord a = ord b)) as [Heq|]; [|lia].
    apply ord_inj in Heq as ->. done. }
  apply Hstrict; [apply NoDup_chars|apply chars_StronglySorted_le].
Qed.

(** X2: the vocabulary depends on the set of symbols of the corpus only: two
    corpora with the same symbols, in whatever order and number, give the
    same [chars], [char_indices] and [indices_char]. *)
Theorem vocabulary_of_symbol_set (text1 text2 : str) :
  (∀ c, c ∈ text1 ↔ c ∈ text2) →
  chars text1 = chars text2
  ∧ char_indices text1 = char_indices text2
  ∧ indices_char text1 = indices_char text2.
Proof.
  intros Hsame.
  assert (chars text1 = chars text2) as Hc.
  { unfold chars. f_equal. f_equal. apply set_eq. intros c.
    rewrite !elem_of_list_to_set. apply Hsame. }
  unfold char_indices, indices_char. by rewrite Hc.
Qed.

Lemma vocabulary_of_symbol_set_witness :
  chars (list_ascii_of_string "banana") = chars (list_ascii_of_string "nab")
  ∧ char_indices (list_ascii_of_string "banana")
    = char_indices (list_ascii_of_string "nab")
  ∧ indices_char (list_ascii_of_string "banana")
    = indices_char (list_ascii_of_string "nab").
Proof.
  apply (vocabulary_of_symbol_set (list_ascii_of_string "banana")
           (list_ascii_of_string "nab")).
  intros c. simpl. set_unfold. tauto.
Defined.

(** X3: every index below [voc_size] is a key of [indices_char]; its symbol
    occurs in the corpus and [char_indices] maps this symbol back to the
    index. *)
Theorem index_round_trip (text : str) (i : nat) :
  i < voc_size text →
  ∃ c, getitem (indices_char text) i = Ok c
       ∧ c ∈ text
       ∧ getitem (char_indices text) c = Ok i.
Proof.
  intros Hi. destruct (lookup_lt_is_Some_2 (chars text) i Hi) as [c Hc].
  exists c. unfold getitem. rewrite indices_char_lookup, Hc.
  split_and!; [done| |].
  - apply elem_of_chars. by eapply list_elem_of_lookup_2.
  - apply char_indices_lookup in Hc. by rewrite Hc.
Qed.

Lemma index_round_trip_witness :
  ∃ c, getitem (indices_char (list_ascii_of_string "hello")) 3 = Ok c
       ∧ c ∈ list_ascii_of_string "hello"
       ∧ getitem (char_indices (list_ascii_of_string "hello")) c = Ok 3.
Proof.
  apply (index_round_trip (list_ascii_of_string "hello") 3).
  vm_compute. lia.
Defined.

(** X4: [char_indices[c]] raises [KeyError] exactly for the symbols that do
    not occur in the corpus, and [indices_char[i]] exactly for the indices
    from [voc_size] on. *)
Theorem vocabulary_KeyError (text : str) :
  (∀ c, getitem (char_indices text) c = Raise KeyError ↔ c ∉ text)
  ∧ (∀ i, getitem (indices_char text) i = Raise KeyError ↔ voc_size text ≤ i).
Proof.
  split.
  - intros c. rewrite <- char_indices_is_Some. unfold getitem.
    destruct (char_indices text !! c) as [i|] eqn:Hc.
    + split; [done|]. intros H. exfalso. apply H. eauto.
    + split; [|done]. intros _ [i Hi]. done.
  - intros i. unfold getitem.
    destruct (indices_char text !! i) as [c|] eqn:Hc.
    + split; [done|]. intros Hge.
      assert (is_Some (indices_char text !! i)) as His by eauto.
      apply indices_char_is_Some in His. lia.
    + split; [|done]. intros _.
      destruct (decide (i < voc_size text)) as [Hlt|]; [|lia].
      apply indices_char_is_Some in Hlt as [c Hc']. congruence.
Qed.

(** X5: the indices follow the code points: of two symbols of the
    vocabulary the one with the smaller code point has the smaller index,
    and two symbols have the same index only if they are equal. *)
Theorem char_indices_monotone (text : str) (a b : char) (i j : nat) :
  char_indices text !! a = Some i →
  char_indices text !! b = Some j →
  (i < j ↔ char_lt a b) ∧ (i = j ↔ a = b).
Proof.
  rewrite !char_indices_lookup. intros Hi Hj.
  assert (i < j → char_lt a b) as H1 by (by apply (chars_lookup_lt text)).
  assert (j < i → char_lt b a) as H2 by (by apply (chars_lookup_lt text)).
  assert (i = j → a = b) as H3 by (intros ->; congruence).
  unfold char_lt in *. split; split; try done.
  - intros Hlt. destruct (decide (i < j)) as [|Hn]; [done|].
    destruct (decide (i = j)) as [Heq|Hne].
    + specialize (H3 Heq) as ->. lia.
    + assert (j < i) as Hji by lia. specialize (H2 Hji). lia.
  - intros ->. by eapply NoDup_lookup; [apply NoDup_chars|..].
Qed.

Lemma char_indices_monotone_witness :
  (1 < 3 ↔ char_lt "h" "o") ∧ (1 = 3 ↔ "h"%char = "o"%char).
Proof.
  apply (char_indices_monotone (list_ascii_of_string "hello")).
  - vm_compute. reflexivity.
  - vm_compute. reflexivity.
Defined.

(** X6: [len(char_indices)] and [len(indices_char)] are both [voc_size], the
    number of distinct symbols of the corpus; this is at most the length of
    the corpus, and zero only for the empty corpus. *)
Theorem vocabulary_size (text : str) :
  size (char_indices text) = voc_size text
  ∧ size (indices_char text) = voc_size text
  ∧ voc_size text = size (list_to_set text : gset char)
  ∧ voc_size text ≤ length text
  ∧ (voc_size text = 0 ↔ text = []).
Proof.
  assert (voc_size text = size (list_to_set text : gset char)) as Hsz.
  { unfold voc_size. by rewrite chars_Permutation. }
  split_and!; [| |done| |].
  - unfold char_indices. rewrite dict_list_to_map, map_size_list_to_map.
    + rewrite length_reverse, length_fmap. unfold enumerate.
      rewrite length_zip_with, length_seq. unfold voc_size. lia.
    + rewrite <- fmap_reverse, reverse_Permutation, <- list_fmap_compose.
      change (NoDup (enumerate (chars text)).*2).
      rewrite enumerate_snd. apply NoDup_chars.
  - unfold indices_char. rewrite dict_list_to_map, map_size_list_to_map.
    + rewrite length_reverse, length_fmap. unfold enumerate.
      rewrite length_zip_with, length_seq. unfold voc_size. lia.
    + rewrite <- fmap_reverse, reverse_Permutation, <- list_fmap_compose.
      change (NoDup (enumerate (chars text)).*1).
      rewrite enumerate_fst. apply NoDup_seq.
  - unfold voc_size. apply submseteq_length, NoDup_submseteq.
    + apply NoDup_chars.
    + intros c. by rewrite elem_of_chars.
  - unfold voc_size. split.
    + intros Hlen. apply nil_length_inv in Hlen.
      destruct text as [|c text]; [done|].
      assert (c ∈ chars (c :: text)) as Hin by (apply elem_of_chars; by left).
      rewrite Hlen in Hin. by apply elem_of_nil in Hin.
    + by intros ->.
Qed.


Example make_sequences_ex :
  make_sequences (list_ascii_of_string "abcdefgh") 3 2
  = Ok ([list_ascii_of_string "abc"; list_ascii_of_string "cde";
         list_ascii_of_string "efg"],
        list_ascii_of_string "dfh").
Proof. vm_compute. reflexivity. Qed.

(** ** Facts about [make_sequences] *)

Lemma py_slice_inside {A} (s : list A) (i w : nat) :
  i + w ≤ length s →
  py_slice s (Z.of_nat i) (Z.of_nat i + Z.of_nat w) = take w (drop i s).
Proof.
  intros Hle. unfold py_slice, slice_bound.
  rewrite !decide_False by lia.
  rewrite !Z.min_l by lia. rewrite Nat2Z.id.
  f_equal. lia.
Qed.

Lemma str_index_inside (s : str) (i : nat) c :
  s !! i = Some c → str_index s (Z.of_nat i) = Ok c.
Proof.
  intros Hc. unfold str_index.
  rewrite np_index_nat by (by eapply lookup_lt_Some). simpl. by rewrite Hc.
Qed.

Lemma py_range_starts stop step :
  (0 < step)%Z → py_range 0 stop step = Ok (Z.of_nat <$> starts stop step).
Proof.
  intros Hstep. unfold py_range, starts.
  rewrite decide_False by lia. rewrite decide_True by done.
  f_equal. rewrite <- list_fmap_compose.
  replace (stop - 0 + step - 1)%Z with (stop + step - 1)%Z by lia.
  apply list_fmap_ext. intros _ k _. simpl. lia.
Qed.

Lemma starts_lt stop step i :
  (0 < step)%Z → i ∈ starts stop step → (Z.of_nat i < stop)%Z.
Proof.
  intros Hstep Hin. unfold starts in Hin.
  apply list_elem_of_fmap in Hin as (k & -> & Hk).
  apply elem_of_seq in Hk as [_ Hk]. simpl in Hk.
  pose proof (Z.mul_div_le (stop + step - 1) step Hstep).
  assert (Z.of_nat k < (stop + step - 1) `div` step)%Z by lia.
  nia.
Qed.

Lemma make_sequences_loop_inside (text : str) (w : nat) (range : list nat) :
  ∀ sequences next_chars,
  Forall (λ i, i + w < length text) range →
  ∃ cs,
    Forall2 (λ i c, text !! (i + w) = Some c) range cs
    ∧ make_sequences_loop text (Z.of_nat w) (Z.of_nat <$> range)
        sequences next_chars
      = Ok (sequences ++ ((λ i, take w (drop i text)) <$> range),
            next_chars ++ cs).
Proof.
  induction range as [|i range IH]; intros sequences next_chars Hin.
  - exists []. split; [constructor|]. simpl. by rewrite !app_nil_r.
  - apply Forall_cons in Hin as [Hi Hin].
    destruct (lookup_lt_is_Some_2 text (i + w)) as [c Hc]; [lia|].
    destruct (IH (sequences ++ [take w (drop i text)]) (next_chars ++ [c]) Hin)
      as (cs & Hcs & Hloop).
    exists (c :: cs). split; [by constructor|].
    csimpl. rewrite py_slice_inside by lia.
    replace (Z.of_nat i + Z.of_nat w)%Z with (Z.of_nat (i + w)) by lia.
    rewrite (str_index_inside _ _ c) by done. simpl.
    rewrite Hloop. by rewrite <- !(assoc_L (++)).
Qed.

Lemma make_sequences_inside (text : str) (max_length step : Z) :
  (0 < step)%Z → (0 ≤ max_length)%Z →
  let w := Z.to_nat max_length in
  let range := starts (Z.of_nat (length text) - max_length) step in
  ∃ cs,
    Forall2 (λ i c, text !! (i + w) = Some c) range cs
    ∧ make_sequences text max_length step
      = Ok ((λ i, take w (drop i text)) <$> range, cs).
Proof.
  intros Hstep Hmax w range.
  assert (Forall (λ i, i + w < length text) range) as Hin.
  { apply Forall_forall. intros i Hi. apply starts_lt in Hi; [|done].
    unfold w. lia. }
  destruct (make_sequences_loop_inside text w range [] [] Hin)
    as (cs & Hcs & Hloop).
  exists cs. split; [done|]. unfold make_sequences.
  rewrite py_range_starts by done. simpl.
  assert (Z.of_nat w = max_length) as Hw by (unfold w; lia).
  rewrite Hw in Hloop. exact Hloop.
Qed.

(** X7: for a positive [step] and a non-negative [max_length],
    [make_sequences] raises nothing; it returns as many next characters as
    sequences, [max(0, ceil((len(text) - max_length) / step))] of each, and
    every sequence has exactly [max_length] symbols. *)
Theorem make_sequences_shape (text : str) (max_length step : Z) :
  (0 < step)%Z → (0 ≤ max_length)%Z →
  ∃ sequences next_chars,
    make_sequences text max_length step = Ok (sequences, next_chars)
    ∧ Z.of_nat (length sequences)
      = Z.max 0 ((Z.of_nat (length text) - max_length + step - 1) `div` step)
    ∧ length next_chars = length sequences
    ∧ Forall (λ s, Z.of_nat (length s) = max_length) sequences.
Proof.
  intros Hstep Hmax.
  destruct (make_sequences_inside text max_length step Hstep Hmax)
    as (cs & Hcs & Hmk).
  eexists _, cs. split; [exact Hmk|]. split_and!.
  - rewrite length_fmap. unfold starts. rewrite length_fmap, length_seq. lia.
  - apply Forall2_length in Hcs. by rewrite length_fmap.
  - apply Forall_fmap, Forall_forall. intros i Hi. simpl.
    apply starts_lt in Hi; [|done].
    rewrite length_take, length_drop. lia.
Qed.

Lemma make_sequences_shape_witness :
  ∃ sequences next_chars,
    make_sequences (list_ascii_of_string "abcdefgh") 3 2
      = Ok (sequences, next_chars)
    ∧ Z.of_nat (length sequences)
      = Z.max 0 ((Z.of_nat (length (list_ascii_of_string "abcdefgh")) - 3
                  + 2 - 1) `div` 2)
    ∧ length next_chars = length sequences
    ∧ Forall (λ s, Z.of_nat (length s) = 3%Z) sequences.
Proof.
  apply (make_sequences_shape (list_ascii_of_string "abcdefgh") 3 2); lia.
Defined.

(** X8: sequence [j] of [make_sequences] is the slice of [max_length]
    symbols of the text that starts at [j * step], and next character [j]
    is the symbol of the text right after it: together they are the
    [max_length + 1] symbols of the text from position [j * step]. *)
Theorem make_sequences_content (text : str) (max_length step : Z)
    (sequences : list str) (next_chars : list char) (j : nat) (s : str)
    (c : char) :
  (0 < step)%Z → (0 ≤ max_length)%Z →
  make_sequences text max_length step = Ok (sequences, next_chars) →
  sequences !! j = Some s → next_chars !! j = Some c →
  s = take (Z.to_nat max_length) (drop (j * Z.to_nat step) text)
  ∧ text !! (j * Z.to_nat step + Z.to_nat max_length) = Some c
  ∧ s ++ [c] = take (Z.to_nat max_length + 1) (drop (j * Z.to_nat step) text).
Proof.
  intros Hstep Hmax Hmk Hs Hc.
  destruct (make_sequences_inside text max_length step Hstep Hmax)
    as (cs & Hcs & Hmk').
  rewrite Hmk in Hmk'. injection Hmk' as -> ->.
  rewrite list_lookup_fmap in Hs.
  destruct (starts _ _ !! j) as [i|] eqn:Hi; [|done]. injection Hs as <-.
  destruct (Forall2_lookup_l _ _ _ _ _ Hcs Hi) as (c' & Hc' & Htext).
  assert (c' = c) as -> by congruence.
  assert (i = j * Z.to_nat step) as ->.
  { unfold starts in Hi. rewrite list_lookup_fmap in Hi.
    destruct (seq _ _ !! j) as [k|] eqn:Hk; [|done].
    apply lookup_seq in Hk as [-> _]. by injection Hi as <-. }
  split_and!; [done..|].
  replace (Z.to_nat max_length + 1) with (S (Z.to_nat max_length)) by lia.
  rewrite (take_S_r _ _ c); [done|].
  rewrite lookup_drop. by rewrite Nat.add_comm in Htext |- *.
Qed.

Lemma make_sequences_content_witness :
  list_ascii_of_string "cde"
    = take (Z.to_nat 3) (drop (1 * Z.to_nat 2) (list_ascii_of_string "abcdefgh"))
  ∧ list_ascii_of_string "abcdefgh" !! (1 * Z.to_nat 2 + Z.to_nat 3)
    = Some "f"%char
  ∧ list_ascii_of_string "cde" ++ ["f"%char]
    = take (Z.to_nat 3 + 1)
        (drop (1 * Z.to_nat 2) (list_ascii_of_string "abcdefgh")).
Proof.
  apply (make_sequences_content (list_ascii_of_string "abcdefgh") 3 2
           [list_ascii_of_string "abc"; list_ascii_of_string "cde";
            list_ascii_of_string "efg"]
           (list_ascii_of_string "dfh") 1).
  - lia.
  - lia.
  - vm_compute. reflexivity.
  - reflexivity.
  - reflexivity.
Defined.

(** X9: [make_sequences] with a zero [step] raises [ValueError] (from
    [range]); with a positive [step] and a text no longer than [max_length]
    it returns two empty lists, and so it does with a negative [step] when
    [max_length] does not exceed the length of the text. *)
Theorem make_sequences_edge (text : str) (max_length step : Z) :
  (step = 0%Z → make_sequences text max_length step = Raise ValueError)
  ∧ ((0 < step)%Z → (Z.of_nat (length text) ≤ max_length)%Z →
     make_sequences text max_length step = Ok ([], []))
  ∧ ((step < 0)%Z → (max_length ≤ Z.of_nat (length text))%Z →
     make_sequences text max_length step = Ok ([], [])).
Proof.
  split_and!.
  - intros ->. reflexivity.
  - intros Hstep Hshort. unfold make_sequences.
    rewrite py_range_starts by done. unfold starts.
    rewrite (Z2Nat.nonpos ((_ + step - 1) `div` step)); [reflexivity|].
    assert ((Z.of_nat (length text) - max_length + step - 1) `div` step < 1)%Z
      by (apply Z.div_lt_upper_bound; lia).
    lia.
  - intros Hstep Hlong. unfold make_sequences, py_range.
    rewrite decide_False by lia. rewrite decide_False by lia.
    rewrite Z2Nat.nonpos; [reflexivity|].
    assert ((0 - (Z.of_nat (length text) - max_length) - step - 1)
              `div` (- step) < 1)%Z
      by (apply Z.div_lt_upper_bound; lia).
    lia.
Qed.

(** ** More facts about the vectorization and the generation loop *)

Section MoreGenerationFacts.
Context {rng : Type} (draw : rng → list R → nat * rng).
Variable text : str.
Variable max_length : nat.
Variable model : tensor → list float.

Lemma getitem_char_indices_KeyError ch :
  ch ∉ text → getitem (char_indices text) ch = Raise KeyError.
Proof.
  intros Hch. unfold getitem.
  destruct (char_indices text !! ch) as [c|] eqn:Hc; [|done].
  exfalso. apply Hch, char_indices_is_Some. eauto.
Qed.

(** Within the range of the row subscripts, the first failure of the loop
    is the lookup of the first symbol that is not in the vocabulary. *)
Lemma vectorize_loop_KeyError (prefix : str) : ∀ shift t x,
  ¬ Forall (λ ch, ch ∈ text) prefix →
  (- Z.of_nat max_length ≤ Z.of_nat t + shift)%Z →
  (Z.of_nat t + Z.of_nat (length prefix) + shift ≤ Z.of_nat max_length)%Z →
  vectorize_loop text max_length shift t prefix x = Raise KeyError.
Proof.
  induction prefix as [|ch prefix IH]; intros shift t x Hnot Hlo Hhi.
  - exfalso. apply Hnot. constructor.
  - simpl in Hhi. destruct (decide (ch ∈ text)) as [Hch|Hch].
    + destruct (getitem_char_indices text ch Hch) as (c & Hc & Hlt & Hget).
      destruct (np_index_is_Ok max_length (Z.of_nat t + shift))
        as (r & Hr & Hrlt); [lia|].
      simpl. rewrite Hget. simpl. unfold setitem. rewrite Hr. simpl.
      rewrite np_index_nat by done. simpl.
      apply IH; [|lia|lia].
      intros Hall. apply Hnot. by constructor.
    + simpl. by rewrite getitem_char_indices_KeyError.
Qed.

Lemma vectorize_KeyError (prefix : str) :
  ¬ Forall (λ ch, ch ∈ text) prefix →
  length prefix ≤ 2 * max_length →
  vectorize text max_length prefix = Raise KeyError.
Proof.
  intros Hnot Hlen. unfold vectorize. apply vectorize_loop_KeyError; [done|lia|lia].
Qed.

Lemma vectorize_loop_Ok_inv (prefix : str) : ∀ shift t x x',
  vectorize_loop text max_length shift t prefix x = Ok x' →
  Forall (λ ch, ch ∈ text) prefix
  ∧ (prefix ≠ [] → (- Z.of_nat max_length ≤ Z.of_nat t + shift)%Z).
Proof.
  induction prefix as [|ch prefix IH]; intros shift t x x' H.
  - split; [constructor|done].
  - simpl in H. apply bind_Ok_inv in H as (c & Hc & H).
    apply bind_Ok_inv in H as (x1 & Hset & H).
    apply IH in H as [Hin _]. split.
    + constructor; [|done]. apply char_indices_is_Some.
      unfold getitem in Hc. destruct (char_indices text !! ch); [eauto|done].
    + intros _. unfold setitem in Hset.
      apply bind_Ok_inv in Hset as (r & Hr & _).
      unfold np_index in Hr. repeat case_decide; try done; lia.
Qed.

Lemma vectorize_Ok_inv (prefix : str) x :
  vectorize text max_length prefix = Ok x →
  Forall (λ ch, ch ∈ text) prefix ∧ length prefix ≤ 2 * max_length.
Proof.
  unfold vectorize. intros H. apply vectorize_loop_Ok_inv in H as [Hin Hlo].
  split; [done|]. destruct prefix as [|ch prefix]; [simpl; lia|].
  specialize (Hlo ltac:(done)). lia.
Qed.

Lemma generate_step_symbol temperature st st' :
  generate_step draw text max_length model temperature st = Ok st' →
  ∃ ch, ch ∈ text
        ∧ generated st' = generated st ++ [ch]
        ∧ prefix st' = drop 1 (prefix st) ++ [ch].
Proof.
  intros H. apply generate_step_inv in H as (x & k & ch & _ & _ & Hch & Hg & Hp).
  exists ch. split_and!; [|done..].
  rewrite indices_char_lookup in Hch. apply elem_of_chars.
  by eapply list_elem_of_lookup_2.
Qed.

Lemma generate_loop_symbols n temperature : ∀ st st',
  generate_loop draw text max_length model n temperature st = Ok st' →
  ∃ sampled, length sampled = n
             ∧ Forall (λ ch, ch ∈ text) sampled
             ∧ generated st' = generated st ++ sampled.
Proof.
  induction n as [|n IH]; intros st st' H; simpl in H.
  - injection H as <-. exists []. by rewrite app_nil_r.
  - apply bind_Ok_inv in H as (st1 & Hstep & Hloop).
    apply generate_step_symbol in Hstep as (ch & Hch & Hgen & _).
    apply IH in Hloop as (sampled & Hlen & Hin & Hgen').
    exists (ch :: sampled). split_and!; [simpl; lia|by constructor|].
    rewrite Hgen', Hgen. by rewrite <- (assoc_L (++)).
Qed.

(** The window is a suffix of the generated string, and from the first
    iteration on it has the length of the seed, or 1 for an empty seed. *)
Lemma generate_loop_window n temperature : ∀ st st',
  generate_loop draw text max_length model n temperature st = Ok st' →
  prefix st `suffix_of` generated st →
  prefix st' `suffix_of` generated st'
  ∧ length (prefix st')
    = if decide (n = 0) then length (prefix st)
      else Nat.max 1 (length (prefix st)).
Proof.
  induction n as [|n IH]; intros st st' H Hsuf; simpl in H.
  - injection H as <-. done.
  - apply bind_Ok_inv in H as (st1 & Hstep & Hloop).
    apply generate_step_symbol in Hstep as (ch & _ & Hgen & Hpre).
    assert (prefix st1 `suffix_of` generated st1) as Hsuf1.
    { rewrite Hgen, Hpre. apply suffix_app.
      etrans; [apply suffix_drop|done]. }
    destruct (IH st1 st' Hloop Hsuf1) as [Hsuf' Hlen'].
    split; [done|]. rewrite Hlen'.
    assert (length (prefix st1) = Nat.max 1 (length (prefix st))) as ->.
    { rewrite Hpre, length_app, length_drop. simpl. lia. }
    repeat case_decide; lia.
Qed.

End MoreGenerationFacts.



(** X10: the training sequences are full windows for the vectorization of
    [generate_text]: with the vocabulary of the text they are cut from and
    the same [max_length], every sequence is vectorized without error into
    [max_length] one-hot rows (no padding row), and every next character
    is a symbol of the vocabulary. *)
Theorem make_sequences_vectorize (text : str) (max_length step : Z)
    (sequences : list str) (next_chars : list char) (s : str) :
  (0 < step)%Z → (0 ≤ max_length)%Z →
  make_sequences text max_length step = Ok (sequences, next_chars) →
  s ∈ sequences →
  Forall (λ ch, ch ∈ text) next_chars
  ∧ ∃ cs,
      Forall2 (λ ch c, char_indices text !! ch = Some c ∧ c < voc_size text)
        s cs
      ∧ vectorize text (Z.to_nat max_length) s
        = Ok (onehot_row (voc_size text) <$> cs).
Proof.
  intros Hstep Hmax Hmk Hs.
  destruct (make_sequences_inside text max_length step Hstep Hmax)
    as (cs & Hcs & Hmk').
  rewrite Hmk in Hmk'. injection Hmk' as -> ->. split.
  - eapply Forall2_Forall_r; [exact Hcs|]. apply Forall_true.
    intros i c Hc. by eapply list_elem_of_lookup_2.
  - apply list_elem_of_fmap in Hs as (i & -> & Hi).
    apply starts_lt in Hi; [|done].
    set (s := take (Z.to_nat max_length) (drop i text)).
    assert (length s = Z.to_nat max_length) as Hlen
      by (unfold s; rewrite length_take, length_drop; lia).
    assert (Forall (λ ch, ch ∈ text) s) as Hin.
    { apply Forall_forall. intros ch Hch. unfold s in Hch.
      apply list_elem_of_lookup in Hch as [j Hj].
      apply lookup_take_Some in Hj as [Hj _]. rewrite lookup_drop in Hj.
      by eapply list_elem_of_lookup_2. }
    destruct (vectorize_loop_fits text (Z.to_nat max_length) s 0 [] [] Hin)
      as (ks & Hks & Hloop); [simpl; lia|].
    exists ks. split; [done|]. simpl in Hloop. rewrite !app_nil_r in Hloop.
    unfold vectorize, zeros. rewrite Hlen, Z.sub_diag.
    rewrite Hlen in Hloop. exact Hloop.
Qed.

Lemma make_sequences_vectorize_witness :
  Forall (λ ch, ch ∈ list_ascii_of_string "abcabcab")
    (list_ascii_of_string "acb")
  ∧ ∃ cs,
      Forall2 (λ ch c,
                 char_indices (list_ascii_of_string "abcabcab") !! ch = Some c
                 ∧ c < voc_size (list_ascii_of_string "abcabcab"))
        (list_ascii_of_string "cab") cs
      ∧ vectorize (list_ascii_of_string "abcabcab") (Z.to_nat 3)
          (list_ascii_of_string "cab")
        = Ok (onehot_row (voc_size (list_ascii_of_string "abcabcab")) <$> cs).
Proof.
  apply (make_sequences_vectorize (list_ascii_of_string "abcabcab") 3 2
           [list_ascii_of_string "abc"; list_ascii_of_string "cab";
            list_ascii_of_string "bca"]
           (list_ascii_of_string "acb") (list_ascii_of_string "cab")).
  - lia.
  - lia.
  - vm_compute. reflexivity.
  - apply elem_of_cons. right. apply elem_of_cons. by left.
Defined.

(** X11: a seed of at most [2 * max_length] symbols that contains a symbol
    absent from the vocabulary makes [generate_text] raise [KeyError] as
    soon as one symbol is asked for; with [length <= 0] the loop does not
    run and the seed is returned as it is, the random state untouched. *)
Theorem generate_text_unknown_symbol {rng} (draw : rng → list R → nat * rng)
    (text : str) (max_length : nat) (model : tensor → list float)
    (seed_string : str) (length : Z) (temperature : float) (g : rng) :
  ¬ Forall (λ ch, ch ∈ text) seed_string →
  List.length seed_string ≤ 2 * max_length →
  generate_text draw text max_length model seed_string length temperature g
  = if decide (0 < length)%Z then Raise KeyError else Ok (seed_string, g).
Proof.
  intros Hnot Hlen. unfold generate_text. case_decide as Hpos.
  - destruct (Z.to_nat length) as [|n] eqn:Hn; [lia|].
    cbn [generate_loop]. unfold generate_step. simpl.
    by rewrite vectorize_KeyError.
  - rewrite Z2Nat.nonpos by lia. reflexivity.
Qed.

Lemma generate_text_unknown_symbol_witness :
  generate_text (draw_index 2) abc 2 stub_model (list_ascii_of_string "az") 5
    (Fin 1) ()
  = if decide (0 < 5)%Z then Raise KeyError
    else Ok (list_ascii_of_string "az", ()).
Proof.
  apply (generate_text_unknown_symbol (draw_index 2) abc 2 stub_model
           (list_ascii_of_string "az") 5 (Fin 1) ()).
  - intros H. apply Forall_cons in H as [_ H]. apply Forall_cons in H as [H _].
    unfold abc in H. simpl in H.
    repeat (apply elem_of_cons in H as [H|H]; [discriminate|]).
    by apply elem_of_nil in H.
  - simpl. lia.
Defined.

(** X12: when [generate_text] returns at least one sampled symbol, the whole
    result, seed included, is made of symbols of the vocabulary, and the
    seed has at most [2 * max_length] symbols. *)
Theorem generate_text_over_vocabulary {rng} (draw : rng → list R → nat * rng)
    (text : str) (max_length : nat) (model : tensor → list float)
    (seed_string : str) (length : Z) (temperature : float) (g g' : rng)
    (s : str) :
  (0 < length)%Z →
  generate_text draw text max_length model seed_string length temperature g
    = Ok (s, g') →
  Forall (λ ch, ch ∈ text) s
  ∧ List.length seed_string ≤ 2 * max_length.
Proof.
  intros Hpos H. unfold generate_text in H.
  apply bind_Ok_inv in H as (st & Hloop & [= <- <-]).
  pose proof (generate_loop_symbols _ _ _ _ _ _ _ _ Hloop)
    as (sampled & _ & Hsampled & Hgen).
  destruct (Z.to_nat length) as [|n] eqn:Hn; [lia|].
  cbn [generate_loop] in Hloop.
  apply bind_Ok_inv in Hloop as (st1 & Hstep & _).
  apply generate_step_inv in Hstep as (x & _ & _ & Hx & _).
  apply vectorize_Ok_inv in Hx as [Hseed Hlen]. simpl in *.
  split; [|done]. rewrite Hgen. by apply Forall_app.
Qed.

Lemma generate_text_over_vocabulary_witness :
  Forall (λ ch, ch ∈ abc) (list_ascii_of_string "abcc")
  ∧ List.length (list_ascii_of_string "ab") ≤ 2 * 2.
Proof.
  apply (generate_text_over_vocabulary (draw_index 2) abc 2 stub_model
           (list_ascii_of_string "ab") 2 (Fin 1) () ()).
  - lia.
  - apply (generate_text_stub 2 (list_ascii_of_string "ab") 2).
    + repeat constructor.
    + simpl. lia.
    + lia.
Defined.



Lemma suffix_drop_length {A} (l1 l2 : list A) :
  l1 `suffix_of` l2 → l1 = drop (length l2 - length l1) l2.
Proof.
  intros [k ->]. rewrite length_app.
  replace (length k + length l1 - length l1) with (length k) by lia.
  by rewrite drop_app_length.
Qed.

(** X14: after [n] iterations started from a seed, the window is the last
    [window_length] symbols of the generated string, where [window_length]
    is the length of the seed (1 for an empty seed once an iteration has
    run); for a seed of exactly [max_length >= 1] symbols it is the last
    [max_length] symbols generated. *)
Theorem generate_window_suffix {rng} (draw : rng → list R → nat * rng)
    (text : str) (max_length : nat) (model : tensor → list float)
    (seed_string : str) (n : nat) (temperature : float) (g : rng)
    (st : loop_state rng) :
  generate_loop draw text max_length model n temperature
    {| generated := seed_string; prefix := seed_string; random_state := g |}
  = Ok st →
  let window_length :=
    if decide (n = 0) then length seed_string
    else Nat.max 1 (length seed_string) in
  prefix st = drop (length (generated st) - window_length) (generated st)
  ∧ length (prefix st) = window_length
  ∧ (length seed_string = max_length → 1 ≤ max_length →
     prefix st = spec_window max_length (generated st)).
Proof.
  intros Hloop L.
  destruct (generate_loop_window _ _ _ _ _ _ _ _ Hloop) as [Hsuf Hlen];
    [done|].
  simpl in Hlen. fold L in Hlen.
  apply suffix_drop_length in Hsuf. rewrite Hlen in Hsuf.
  split_and!; [done..|].
  intros HW H1. unfold spec_window. rewrite Hsuf at 1.
  f_equal. f_equal. unfold L. case_decide; lia.
Qed.

Lemma generate_window_suffix_witness :
  let st := {| generated := list_ascii_of_string "abc";
               prefix := list_ascii_of_string "bc";
               random_state := () |} in
  let window_length :=
    if decide (1 = 0) then length (list_ascii_of_string "ab")
    else Nat.max 1 (length (list_ascii_of_string "ab")) in
  prefix st = drop (length (generated st) - window_length) (generated st)
  ∧ length (prefix st) = window_length
  ∧ (length (list_ascii_of_string "ab") = 2 → 1 ≤ 2 →
     prefix st = spec_window 2 (generated st)).
Proof.
  apply (generate_window_suffix (draw_index 2) abc 2 stub_model
           (list_ascii_of_string "ab") 1 (Fin 1) ()).
  cbn [generate_loop]. rewrite generate_step_stub.
  - reflexivity.
  - repeat constructor.
  - simpl. lia.
Defined.

(** ** More facts about the sampler *)



Lemma normalize_one ps : Rsum ps = 1%R → normalize ps = ps.
Proof.
  intros Hs. unfold normalize. rewrite Hs.
  rewrite <- (list_fmap_id ps) at 2. apply list_fmap_ext.
  intros _ p _. simpl. lra.
Qed.


Lemma weight_temperature_1 (ps : list R) :
  Forall (λ p, 0 < p)%R ps → weight 1 <$> ps = ps.
Proof.
  intros Hps. rewrite <- (list_fmap_id ps) at 2. apply Forall_fmap_ext_1.
  eapply Forall_impl; [exact Hps|]. intros p Hp. simpl. unfold weight.
  rewrite decide_False by lra.
  replace (ln p / 1)%R with (ln p) by lra. by apply exp_ln.
Qed.

Lemma ln_float64_probability p :
  float64_probability p → (- 1074 <= ln p <= - / 2 ^ 53 ∨ ln p = 0)%R.
Proof.
  intros [Hlo Hhi].
  assert (0 < / 2 ^ 1074)%R as Hpos
    by (apply Rinv_0_lt_compat, pow_lt; lra).
  destruct Hhi as [->|Hhi]; [right; apply ln_1|left].
  pose proof (ln_bounds p ltac:(lra)) as [_ Hup]. split; [|lra].
  assert (ln (/ 2 ^ 1074) <= ln p)%R as Hle.
  { destruct Hlo as [Hlt|<-]; [left; by apply ln_increasing|lra]. }
  rewrite ln_Rinv, ln_pow in Hle by (try apply pow_lt; lra).
  pose proof (ln_bounds 2 ltac:(lra)) as [Hl2 Hu2].
  replace (INR 1074) with 1074%R in Hle by (rewrite INR_IZR_INZ; done).
  nra.
Qed.

Lemma within_float_range_neutral (ps : list R) :
  Forall float64_probability ps → Rsum ps = 1%R → within_float_range ps 1.
Proof.
  intros Hps Hsum. pose proof thresholds as [[Hu0 Hu] Ho].
  assert (0 < / 2 ^ 1074 ∧ / 2 ^ 1075 < / 2 ^ 1074 ∧ 1074 < 2 ^ 1000
          ∧ / 2 ^ 1000 < / 2 ^ 53 ∧ 1 < 2 ^ 1000)%R
    as (Hc0 & Hc1 & Hc2 & Hc3 & Hc4) by lra.
  assert (Forall (λ p, 0 < p)%R ps) as Hpos.
  { eapply Forall_impl; [exact Hps|]. intros p [Hlo _]. simpl. lra. }
  assert (Forall (λ p, 0 <= p)%R ps) as Hnn.
  { eapply Forall_impl; [exact Hpos|]. simpl. intros; lra. }
  assert (Forall (λ p, in_range p) ps) as Hin.
  { rewrite Forall_forall in Hps. apply Forall_forall. intros p Hp.
    destruct (Hps p Hp) as [Hlo _].
    pose proof (Rsum_elem_le ps p Hnn Hp).
    apply in_range_pos. unfold underflow_threshold. lra. }
  unfold within_float_range. rewrite weight_temperature_1, Hsum by done.
  split_and!.
  - rewrite Forall_forall in Hps, Hin, Hpos. apply Forall_forall.
    intros p Hp. right.
    replace (ln p / 1)%R with (ln p) by lra. split.
    + destruct (ln_float64_probability p (Hps p Hp)) as [Hln| ->];
        [|apply in_range_0].
      apply in_range_neg. lra.
    + unfold weight. rewrite decide_False by (specialize (Hpos p Hp); lra).
      replace (ln p / 1)%R with (ln p) by lra.
      rewrite exp_ln by (by apply Hpos). by apply Hin.
  - lra.
  - rewrite Forall_forall in Hin, Hpos. apply Forall_forall. intros p Hp.
    unfold weight. rewrite decide_False by (specialize (Hpos p Hp); lra).
    replace (ln p / 1)%R with (ln p) by lra.
    rewrite exp_ln by (by apply Hpos).
    replace (p / 1)%R with p by lra. by apply Hin.
Qed.

(** X15: temperature 1 is neutral: on a vector of strictly positive entries
    that sum to 1, of the magnitudes that [float64] values have,
    [sample_one] with temperature [1.0] draws from this very vector. *)
Theorem sample_one_neutral_temperature {rng} (draw : rng → list R → nat * rng)
    (ps : list R) (g : rng) :
  draw_in_range draw →
  Forall (λ p, 0 < p)%R ps → Rsum ps = 1%R →
  Forall float64_probability ps →
  sample_one draw (Fin <$> ps) (Fin 1) g = Ok (draw g ps).
Proof.
  intros Hdraw Hps Hsum Hfl.
  pose proof (within_float_range_neutral ps Hfl Hsum) as Hr.
  assert (ps ≠ []) as Hne by (intros ->; simpl in Hsum; lra).
  rewrite sample_one_weights.
  - by rewrite weight_temperature_1, normalize_one.
  - eapply Forall_impl; [exact Hps|]. intros p Hp. left. split; [done|lra].
  - destruct Hps as [|p ps Hp _]; [done|]. apply Exists_cons_hd. lra.
  - done.
  - by apply draw_in_range_weights.
Qed.

Lemma sample_one_neutral_temperature_witness :
  sample_one (draw_index 0) (Fin <$> [0.25; 0.75]%R) (Fin 1) ()
  = Ok (draw_index 0 () [0.25; 0.75]%R).
Proof.
  apply (sample_one_neutral_temperature (draw_index 0) [0.25; 0.75]%R ()).
  - exact draw_index_0_in_range.
  - repeat apply Forall_cons_2; [lra..|constructor].
  - simpl. lra.
  - unfold float64_probability.
    repeat apply Forall_cons_2; [split; [|right]; lra..|constructor].
Defined.










(** X18: whenever [sample_one] returns, its input was not empty and the draw
    was made once, from as many reals as the input has entries, each within
    [0, 1], the sum of all but the last being at most [1 + 1e-12] (what
    numpy checks; they need not sum to 1 when the sum of the exponentials
    overflows); the random state returned is the one left by this draw, and
    the index returned is the category drawn (when the draw selects one of
    the categories). *)
Theorem sample_one_draws_from_distribution {rng}
    (draw : rng → list R → nat * rng)
    (preds : list float) (temperature : float) (g g' : rng) (k : nat) :
  sample_one draw preds temperature g = Ok (k, g') →
  preds ≠ []
  ∧ ∃ ps,
      length ps = length preds
      ∧ Forall (λ p, 0 <= p <= 1)%R ps
      ∧ (Rsum (removelast ps) <= 1 + 1e-12)%R
      ∧ g' = (draw g ps).2
      ∧ ((draw g ps).1 < length ps → k = (draw g ps).1).
Proof.
  rewrite sample_one_rescale. cbv zeta.
  set (es := rescale temperature <$> preds). intros H.
  apply bind_Ok_inv in H as ([probs g1] & Hm & H).
  apply bind_Ok_inv in H as (k1 & Ha & [= -> ->]).
  unfold multinomial in Hm.
  destruct (mapM finite _) as [ps|] eqn:Hps; [|done].
  destruct (decide (Forall _ ps)) as [Hb|]; [|done].
  destruct (decide (_ < _)%R) as [|Hsum]; [done|].
  destruct (draw g ps) as [k2 g2] eqn:Hd. injection Hm as <- <-.
  pose proof (length_mapM _ _ _ Hps) as Hlen. rewrite length_fmap in Hlen.
  unfold es in Hlen. rewrite length_fmap in Hlen.
  pose proof (argmax_lt _ _ Ha) as Hk.
  rewrite length_insert, length_replicate in Hk.
  assert (preds ≠ []) as Hne by (intros ->; simpl in *; lia).
  split; [done|]. exists ps. rewrite Hd. simpl.
  split_and!; [done|done|lra|done|].
  intros Hlt. rewrite argmax_onehot in Ha by done. by injection Ha.
Qed.

Lemma sample_one_draws_from_distribution_witness :
  [Fin 0.1; Fin 0.1; Fin 0.8] ≠ []
  ∧ ∃ ps,
      length ps = length [Fin 0.1; Fin 0.1; Fin 0.8]
      ∧ Forall (λ p, 0 <= p <= 1)%R ps
      ∧ (Rsum (removelast ps) <= 1 + 1e-12)%R
      ∧ () = (draw_index 2 () ps).2
      ∧ ((draw_index 2 () ps).1 < length ps → 2 = (draw_index 2 () ps).1).
Proof.
  apply (sample_one_draws_from_distribution (draw_index 2)
           [Fin 0.1; Fin 0.1; Fin 0.8] (Fin 1) () () 2).
  apply sample_one_stub.
Defined.

(** ** More facts about the embedding *)

Lemma np_index_Ok_lt n i r : np_index n i = Ok r → r < n.
Proof. unfold np_index. repeat case_decide; intros [= <-]; lia. Qed.

Lemma np_index_mod n (i : Z) :
  np_index n i =
    if decide (- Z.of_nat n ≤ i < Z.of_nat n)%Z
    then Ok (Z.to_nat (i `mod` Z.of_nat n))
    else Raise IndexError.
Proof.
  unfold np_index. destruct (decide (0 ≤ i < Z.of_nat n)%Z) as [Hi|Hi].
  - rewrite decide_True by lia. by rewrite Z.mod_small.
  - destruct (decide (- Z.of_nat n ≤ i < 0)%Z) as [Hneg|Hneg].
    + rewrite decide_True by lia. f_equal. f_equal.
      rewrite <- (Z.mod_add i 1 (Z.of_nat n)) by lia.
      rewrite Z.mod_small; lia.
    + by rewrite decide_False by lia.
Qed.

Lemma onehot_encode_index dim label i :
  np_index dim label = Ok i → onehot_encode dim label = Ok (unit_vector dim i).
Proof.
  intros Hi. unfold onehot_encode, row_at. rewrite length_eye, Hi. simpl.
  rewrite eye_lookup; [done|]. by eapply np_index_Ok_lt.
Qed.

Lemma length_unit_vector dim k : length (unit_vector dim k) = dim.
Proof. unfold unit_vector. by rewrite length_insert, length_replicate. Qed.

Lemma Rsum_zeros_replicate n : Rsum (replicate n 0%R) = 0%R.
Proof. induction n as [|n IH]; simpl; [done|]. fold (Rsum (replicate n 0%R)). lra. Qed.

Lemma Rsum_unit_vector dim k : k < dim → Rsum (unit_vector dim k) = 1%R.
Proof.
  unfold unit_vector. revert k. induction dim as [|dim IH]; intros k Hk; [lia|].
  destruct k as [|k]; simpl.
  - fold (Rsum (replicate dim 0%R)). rewrite Rsum_zeros_replicate. lra.
  - fold (Rsum (<[k:=1%R]> (replicate dim 0%R))). rewrite IH by lia. lra.
Qed.

Lemma dot_unit_vector (M : matrix) i row :
  well_shaped M → rows M !! i = Some row →
  dot (unit_vector (length (rows M)) i) M = Ok row.
Proof.
  intros Hshape Hrow. unfold dot.
  rewrite decide_True by apply length_unit_vector. f_equal.
  transitivity ((λ j, default 0%R (row !! j)) <$> seq 0 (ncols M)).
  - apply list_fmap_ext. intros _ j _. simpl.
    apply (dot_unit_column (λ r, default 0%R (r !! j))). done.
  - unfold well_shaped in Hshape. rewrite Forall_forall in Hshape.
    rewrite <- (Hshape row) by (by eapply list_elem_of_lookup_2).
    apply fmap_lookup_seq.
Qed.

(** X19: for every label, in range or not, one-hot encoding followed by the
    dot product behaves as the subscript [M[label]] on a matrix of [dim]
    rows: a negative label within [-dim, 0) counts from the last row, and
    outside [-dim, dim) both raise [IndexError]. *)
Theorem onehot_dot_all_labels (dim : nat) (label : Z) (M : matrix) :
  well_shaped M →
  length (rows M) = dim →
  (v ← onehot_encode dim label; dot v M) = row_at (rows M) label
  ∧ (row_at (rows M) label = Raise IndexError
     ↔ ¬ (- Z.of_nat dim ≤ label < Z.of_nat dim)%Z).
Proof.
  intros Hshape Hrows. unfold row_at at 1 2. rewrite Hrows.
  destruct (np_index dim label) as [i|e] eqn:Hi.
  - pose proof (np_index_Ok_lt _ _ _ Hi) as Hlt.
    destruct (lookup_lt_is_Some_2 (rows M) i) as [row Hrow]; [lia|].
    rewrite (onehot_encode_index _ _ _ Hi). simpl. rewrite Hrow.
    rewrite <- Hrows, (dot_unit_vector M i row) by done. split; [done|].
    split; [done|]. intros Hout. rewrite np_index_mod in Hi.
    rewrite Hrows in Hout. by rewrite decide_False in Hi.
  - unfold onehot_encode, row_at. rewrite length_eye, Hi. simpl.
    split; [done|]. rewrite np_index_mod in Hi.
    case_decide; [done|]. by injection Hi as <-.
Qed.

Lemma onehot_dot_all_labels_witness :
  (v ← onehot_encode 10 (-1); dot v embedding_matrix)
    = row_at (rows embedding_matrix) (-1)
  ∧ (row_at (rows embedding_matrix) (-1) = Raise IndexError
     ↔ ¬ (- Z.of_nat 10 ≤ -1 < Z.of_nat 10)%Z).
Proof.
  apply (onehot_dot_all_labels 10 (-1) embedding_matrix).
  - unfold well_shaped, embedding_matrix. simpl. repeat constructor.
  - reflexivity.
Defined.

(** X20: [onehot_encode(dim, label)] is the unit vector at [label mod dim]
    for a label within [-dim, dim) and raises [IndexError] otherwise; a
    returned vector has [dim] entries that sum to 1. *)
Theorem onehot_encode_all_labels (dim : nat) (label : Z) :
  onehot_encode dim label
  = (if decide (- Z.of_nat dim ≤ label < Z.of_nat dim)%Z
     then Ok (unit_vector dim (Z.to_nat (label `mod` Z.of_nat dim)))
     else Raise IndexError)
  ∧ ∀ v, onehot_encode dim label = Ok v →
         length v = dim ∧ Rsum v = 1%R.
Proof.
  assert (onehot_encode dim label
          = if decide (- Z.of_nat dim ≤ label < Z.of_nat dim)%Z
            then Ok (unit_vector dim (Z.to_nat (label `mod` Z.of_nat dim)))
            else Raise IndexError) as Heq.
  { pose proof (np_index_mod dim label) as Hi. case_decide.
    - by apply onehot_encode_index.
    - unfold onehot_encode, row_at. by rewrite length_eye, Hi. }
  split; [done|]. intros v Hv. rewrite Heq in Hv.
  case_decide as Hin; [|done]. injection Hv as <-.
  split; [apply length_unit_vector|]. apply Rsum_unit_vector.
  pose proof (Z.mod_pos_bound label (Z.of_nat dim)). lia.
Qed.

Lemma round_float32_exact (k : nat) :
  (Z.of_nat k < 2 ^ 24)%Z → IZR (round_float32 (Z.of_nat k)) = INR k.
Proof.
  intros Hk. unfold round_float32. rewrite decide_True by done.
  by rewrite INR_IZR_INZ.
Qed.

(** Above [2^24] the entries are rounded: the odd integer [2^24 + 1] is
    stored as [2^24], and [2^24 + 3] as [2^24 + 4]. *)
Lemma round_float32_odd :
  round_float32 16777217 = 16777216%Z ∧ round_float32 16777219 = 16777220%Z.
Proof. split; vm_compute; reflexivity. Qed.

Lemma reshape_arange_row nrows ncols i :
  (Z.of_nat (ncols * nrows) <= 2 ^ 24)%Z →
  i < nrows →
  take ncols (drop (i * ncols) (arange (ncols * nrows)))
  = (λ j, INR (i * ncols + j)) <$> seq 0 ncols.
Proof.
  intros Hsize Hi. unfold arange.
  rewrite <- fmap_drop, <- fmap_take, drop_seq, take_seq.
  replace (ncols `min` (ncols * nrows - i * ncols)) with ncols by nia.
  replace (0 + i * ncols) with (i * ncols + 0) by lia.
  rewrite <- fmap_add_seq, <- list_fmap_compose.
  apply Forall_fmap_ext_1, Forall_forall. intros j Hj.
  apply elem_of_seq in Hj. simpl. apply round_float32_exact. nia.
Qed.

(** X21: with at most [2^24] entries, all of them exact in [float32], the
    embedding matrix [arange(embedding_size * vocab_size)] reshaped to
    [(vocab_size, embedding_size)] is well formed, and the embedding of a
    label [i] computed by one-hot encoding and dot product is the vector
    [i * embedding_size + j] for [j] below [embedding_size]. *)
Theorem embedding_matrix_rows (embedding_size vocab_size : nat) (i : nat) :
  (Z.of_nat (embedding_size * vocab_size) <= 2 ^ 24)%Z →
  i < vocab_size →
  ∃ M,
    make_embedding_matrix embedding_size vocab_size = Ok M
    ∧ well_shaped M
    ∧ length (rows M) = vocab_size
    ∧ ncols M = embedding_size
    ∧ (v ← onehot_encode vocab_size (Z.of_nat i); dot v M)
      = Ok ((λ j, INR (i * embedding_size + j)) <$> seq 0 embedding_size).
Proof.
  intros Hsize Hi. unfold make_embedding_matrix, reshape.
  rewrite decide_True
    by (unfold arange; rewrite length_fmap, length_seq; lia).
  eexists. split; [reflexivity|].
  assert (∀ k, k < vocab_size →
            ((λ i, take embedding_size
                     (drop (i * embedding_size)
                        (arange (embedding_size * vocab_size))))
               <$> seq 0 vocab_size) !! k
            = Some ((λ j, INR (k * embedding_size + j))
                      <$> seq 0 embedding_size)) as Hrow.
  { intros k Hk. rewrite list_lookup_fmap, lookup_seq_lt by done. simpl.
    by rewrite reshape_arange_row. }
  assert (well_shaped
            {| ncols := embedding_size;
               rows := (λ i, take embedding_size
                               (drop (i * embedding_size)
                                  (arange (embedding_size * vocab_size))))
                         <$> seq 0 vocab_size |}) as Hshape.
  { unfold well_shaped. simpl. apply Forall_forall. intros row Hin.
    apply list_elem_of_lookup in Hin as [k Hk].
    pose proof (lookup_lt_Some _ _ _ Hk) as Hlt.
    rewrite length_fmap, length_seq in Hlt.
    rewrite Hrow in Hk by done. injection Hk as <-.
    by rewrite length_fmap, length_seq. }
  split_and!; [done|simpl; by rewrite length_fmap, length_seq|done|].
  rewrite (onehot_encode_index _ _ i) by (by apply np_index_nat). simpl.
  pose proof (dot_unit_vector _ i _ Hshape (Hrow i Hi)) as Hdot.
  simpl in Hdot. rewrite length_fmap, length_seq in Hdot. exact Hdot.
Qed.

Lemma embedding_matrix_rows_witness :
  ∃ M,
    make_embedding_matrix 4 10 = Ok M
    ∧ well_shaped M
    ∧ length (rows M) = 10
    ∧ ncols M = 4
    ∧ (v ← onehot_encode 10 (Z.of_nat 3); dot v M)
      = Ok ((λ j, INR (3 * 4 + j)) <$> seq 0 4).
Proof.
  apply (embedding_matrix_rows 4 10 3); lia.
Defined.

(** ** Which entries the vectorization sets *)

Lemma cell_alter (x : tensor) r0 c0 r c :
  r0 < length x →
  (∀ row, x !! r0 = Some row → c0 < length row) →
  cell (alter (λ row, <[c0 := Fin 1]> row) r0 x) r c
  = if decide (r = r0 ∧ c = c0) then Some (Fin 1) else cell x r c.
Proof.
  intros Hr0 Hc0. unfold cell.
  destruct (decide (r = r0)) as [->|Hr].
  - rewrite list_lookup_alter_eq.
    destruct (lookup_lt_is_Some_2 x r0 Hr0) as [row Hrow]. rewrite Hrow. simpl.
    destruct (decide (c = c0)) as [->|Hc].
    + rewrite decide_True by done. apply list_lookup_insert_eq. eauto.
    + rewrite decide_False by (intros [_ ?]; done).
      by apply list_lookup_insert_ne.
  - rewrite decide_False by (intros [? _]; done).
    by rewrite list_lookup_alter_ne.
Qed.

Section VectorizeCells.
Variable text : str.
Variable max_length : nat.

Lemma writes_cons shift t ch prefix r c :
  writes text max_length shift t (ch :: prefix) r c ↔
    (char_indices text !! ch = Some c
     ∧ np_index max_length (Z.of_nat t + shift) = Ok r)
    ∨ writes text max_length shift (S t) prefix r c.
Proof.
  unfold writes. split.
  - intros (j & ch' & Hj & Hc & Hr). destruct j as [|j]; simpl in Hj.
    + injection Hj as <-. left. split; [done|].
      by replace (t + 0) with t in Hr by lia.
    + right. exists j, ch'. split_and!; [done..|].
      by replace (S t + j) with (t + S j) by lia.
  - intros [[Hc Hr]|(j & ch' & Hj & Hc & Hr)].
    + exists 0, ch. split_and!; [done..|].
      by replace (t + 0) with t by lia.
    + exists (S j), ch'. split_and!; [done..|].
      by replace (t + S j) with (S t + j) by lia.
Qed.

Lemma vectorize_loop_cells (prefix : str) : ∀ shift t x x' r c,
  length x = max_length →
  Forall (λ row, length row = voc_size text) x →
  vectorize_loop text max_length shift t prefix x = Ok x' →
  (writes text max_length shift t prefix r c → cell x' r c = Some (Fin 1))
  ∧ (cell x r c = Some (Fin 1) → cell x' r c = Some (Fin 1))
  ∧ (¬ writes text max_length shift t prefix r c → cell x' r c = cell x r c).
Proof.
  induction prefix as [|ch prefix IH]; intros shift t x x' r c Hlen Hrows H.
  - injection H as <-. split_and!; [|done..].
    intros (j & ch & Hj & _). done.
  - simpl in H. apply bind_Ok_inv in H as (c0 & Hc0 & H).
    apply bind_Ok_inv in H as (x1 & Hset & H).
    unfold getitem in Hc0.
    destruct (char_indices text !! ch) as [c0'|] eqn:Hch; [|done].
    injection Hc0 as ->.
    unfold setitem in Hset.
    apply bind_Ok_inv in Hset as (r0 & Hr0 & Hset).
    apply bind_Ok_inv in Hset as (c1 & Hc1 & [= <-]).
    pose proof (np_index_Ok_lt _ _ _ Hr0) as Hr0lt.
    pose proof (char_indices_lt _ _ _ Hch) as Hc0lt.
    rewrite np_index_nat in Hc1 by done. injection Hc1 as <-.
    set (x1 := alter (λ row, <[c0 := Fin 1]> row) r0 x) in *.
    assert (cell x1 r c
            = if decide (r = r0 ∧ c = c0) then Some (Fin 1) else cell x r c)
      as Hcell.
    { apply cell_alter; [lia|].
      intros row Hrow. rewrite Forall_forall in Hrows.
      rewrite (Hrows row) by (by eapply list_elem_of_lookup_2). done. }
    destruct (IH shift (S t) x1 x' r c) as (IH1 & IH2 & IH3); [| |done|].
    { unfold x1. by rewrite length_alter. }
    { unfold x1. apply Forall_alter; [done|]. intros row _ Hrow.
      by rewrite length_insert. }
    rewrite writes_cons. split_and!.
    + intros [[Hc Hr]|Hw]; [|by apply IH1].
      apply IH2. rewrite Hcell. rewrite decide_True; [done|].
      split; congruence.
    + intros Hone. apply IH2. rewrite Hcell. by case_decide.
    + intros Hnot. rewrite IH3 by (intros ?; apply Hnot; by right).
      rewrite Hcell. rewrite decide_False; [done|].
      intros [-> ->]. apply Hnot. by left.
Qed.

End VectorizeCells.

(** X22: in a tensor returned by the vectorization, the entry of row [r] and
    column [c] is [1] when some symbol of the window has index [c] and a
    row subscript [t + shift] that designates row [r] (after wrap-around of
    negative subscripts), and [0] otherwise. *)
Theorem vectorize_cells (text : str) (max_length : nat) (window : str)
    (x : tensor) (r c : nat) :
  vectorize text max_length window = Ok x →
  r < max_length → c < voc_size text →
  let shift := (Z.of_nat max_length - Z.of_nat (length window))%Z in
  (writes text max_length shift 0 window r c → cell x r c = Some (Fin 1))
  ∧ (¬ writes text max_length shift 0 window r c → cell x r c = Some (Fin 0)).
Proof.
  intros Hx Hr Hc shift. unfold vectorize in Hx. fold shift in Hx.
  destruct (vectorize_loop_cells text max_length window shift 0
              (zeros max_length (voc_size text)) x r c) as (H1 & _ & H2).
  - unfold zeros. by rewrite length_replicate.
  - unfold zeros. apply Forall_replicate. by rewrite length_replicate.
  - done.
  - split; [done|]. intros Hnot. rewrite H2 by done.
    unfold cell, zeros. rewrite lookup_replicate_2 by done. simpl.
    by apply lookup_replicate_2.
Qed.

Lemma vectorize_cells_witness :
  let shift := (Z.of_nat 3 - Z.of_nat (length (list_ascii_of_string "abcba")))%Z in
  (writes abc 3 shift 0 (list_ascii_of_string "abcba") 1 1 →
   cell [[Fin 0; Fin 0; Fin 1]; [Fin 1; Fin 1; Fin 0]; [Fin 1; Fin 1; Fin 0]]
     1 1 = Some (Fin 1))
  ∧ (¬ writes abc 3 shift 0 (list_ascii_of_string "abcba") 1 1 →
     cell [[Fin 0; Fin 0; Fin 1]; [Fin 1; Fin 1; Fin 0]; [Fin 1; Fin 1; Fin 0]]
       1 1 = Some (Fin 0)).
Proof.
  apply (vectorize_cells abc 3 (list_ascii_of_string "abcba")).
  - vm_compute. reflexivity.
  - lia.
  - vm_compute. lia.
Defined.

(** ** Longer generations extend shorter ones *)

Lemma generate_loop_add {rng} (draw : rng → list R → nat * rng)
    (text : str) (max_length : nat) (model : tensor → list float)
    (m n : nat) (temperature : float) : ∀ st : loop_state rng,
  generate_loop draw text max_length model (m + n) temperature st
  = (st' ← generate_loop draw text max_length model m temperature st;
     generate_loop draw text max_length model n temperature st').
Proof.
  induction m as [|m IH]; intros st; [done|].
  cbn [Nat.add generate_loop].
  destruct (generate_step draw text max_length model temperature st)
    as [st1|e]; simpl; [apply IH|done].
Qed.

(** X23: with the same model, seed, temperature and random state, asking
    for more symbols extends the result: the string returned for [m]
    symbols is a prefix of the one returned for [n >= m], and an exception
    raised within the first [m] iterations is raised for [n] as well. *)
Theorem generate_text_extends {rng} (draw : rng → list R → nat * rng)
    (text : str) (max_length : nat) (model : tensor → list float)
    (seed_string : str) (m n : Z) (temperature : float) (g : rng) :
  (m ≤ n)%Z →
  match generate_text draw text max_length model seed_string m temperature g
  with
  | Ok (s, _) =>
      ∀ s' g', generate_text draw text max_length model seed_string n
                 temperature g = Ok (s', g') →
               s `prefix_of` s'
  | Raise e =>
      generate_text draw text max_length model seed_string n temperature g
      = Raise e
  end.
Proof.
  intros Hmn. unfold generate_text.
  replace (Z.to_nat n) with (Z.to_nat m + (Z.to_nat n - Z.to_nat m)) by lia.
  rewrite generate_loop_add.
  destruct (generate_loop draw text max_length model (Z.to_nat m) temperature
              _) as [st|e]; simpl; [|done].
  intros s' g' H. apply bind_Ok_inv in H as (st' & Hloop & [= <- <-]).
  apply generate_loop_generated in Hloop as (sampled & _ & ->).
  by apply prefix_app_r.
Qed.

Lemma generate_text_extends_witness :
  match generate_text (draw_index 2) abc 2 stub_model
          (list_ascii_of_string "az") 1 (Fin 1) ()
  with
  | Ok (s, _) =>
      ∀ s' g', generate_text (draw_index 2) abc 2 stub_model
                 (list_ascii_of_string "az") 4 (Fin 1) () = Ok (s', g') →
               s `prefix_of` s'
  | Raise e =>
      generate_text (draw_index 2) abc 2 stub_model
        (list_ascii_of_string "az") 4 (Fin 1) ()
      = Raise e
  end.
Proof.
  apply (generate_text_extends (draw_index 2) abc 2 stub_model
           (list_ascii_of_string "az") 1 4 (Fin 1) ()).
  lia.
Defined.
